(** * A typewriter text adventure: the renderer and the story navigator

    Shallow embedding of [src/main.py]: the [TypewriterText] class (reveal
    counter, word wrap) and the choice handling of the main loop (key
    derivation, redirects, unwritten paths).

    Conventions of the embedding:
    - a Python [str] is a list of Unicode code points, [len] is its length;
    - a Python [int] is a [Z];
    - [pygame.time.get_ticks()] is read by [set_text] and [update]; the value
      read is passed to them as the argument [now];
    - the mixer channel (typing sound) is an external collaborator whose
      calls never feed back into the fields modelled here; it is left out. *)

From Stdlib Require Import ZArith List String Ascii DecimalString Lia Bool Sorted.
From Stdlib Require DecimalPos DecimalZ.
From stdpp Require Import gmap.
Import ListNotations.

Local Open Scope Z_scope.

(** ** Python strings *)

Definition char := N.
Definition str := list char.

(** An ASCII literal of the source, character by character. *)
Definition py (s : string) : str := map N_of_ascii (list_ascii_of_string s).
Arguments py s%_string.

(** [len(s)] *)
Definition len {A} (s : list A) : Z := Z.of_nat (length s).

(** [str(n)] for an [int]: decimal digits, a leading minus sign when negative. *)
Definition str_of_int (n : Z) : str := py (NilZero.string_of_int (Z.to_int n)).

Definition space : char := 32%N.
Definition newline : char := 10%N.

(** [c.isspace()]: the code points Python's [str.strip()] removes. *)
Definition isspace (c : char) : bool :=
  ((9 <=? c) && (c <=? 13) || (28 <=? c) && (c <=? 32)
   || (c =? 133) || (c =? 160) || (c =? 5760)
   || (8192 <=? c) && (c <=? 8202) || (c =? 8232) || (c =? 8233)
   || (c =? 8239) || (c =? 8287) || (c =? 12288))%N.

(** [s.lstrip()], [s.rstrip()], [s.strip()] *)
Fixpoint lstrip (s : str) : str :=
  match s with
  | c :: s' => if isspace c then lstrip s' else s
  | [] => []
  end.

Definition rstrip (s : str) : str := rev (lstrip (rev s)).

Definition strip (s : str) : str := rstrip (lstrip s).

(** [s.split(sep)] for a one-character separator: the pieces between the
    occurrences of [sep]; never the empty list ([''.split(sep) == ['']]). *)
Fixpoint split (sep : char) (s : str) : list str :=
  match s with
  | [] => [[]]
  | c :: s' =>
      if N.eqb c sep then [] :: split sep s'
      else match split sep s' with
           | piece :: pieces => (c :: piece) :: pieces
           | [] => [[c]]
           end
  end.

(** [s[:k]] *)
Definition slice_to (k : Z) (s : str) : str :=
  if 0 <=? k then take (Z.to_nat k) s
  else take (Z.to_nat (len s + k)) s.

(** ** TypewriterText *)

Record TypewriterText := {
  full_text : str;
  current_index : Z;
  last_update : Z;
  delay : Z
}.

(** [TypewriterText.set_text] *)
Definition set_text (text : str) (now : Z) (self : TypewriterText) : TypewriterText :=
  {| full_text := text; current_index := 0; last_update := now;
     delay := delay self |}.

(** [TypewriterText.__init__]: the fields are initialised, then [set_text]
    is called. *)
Definition init (text : str) (delay_ms : Z) (now : Z) : TypewriterText :=
  set_text text now
    {| full_text := []; current_index := 0; last_update := 0;
       delay := delay_ms |}.

(** [TypewriterText.is_finished] *)
Definition is_finished (self : TypewriterText) : bool :=
  len (full_text self) <=? current_index self.

(** [TypewriterText.update] *)
Definition update (now : Z) (self : TypewriterText) : TypewriterText :=
  if negb (is_finished self) && (delay self <? now - last_update self)
  then {| full_text := full_text self;
          current_index := current_index self + 1;
          last_update := now;
          delay := delay self |}
  else self.

(** [TypewriterText.complete] *)
Definition complete (self : TypewriterText) : TypewriterText :=
  {| full_text := full_text self;
     current_index := len (full_text self);
     last_update := last_update self;
     delay := delay self |}.

(** The bounds every operation maintains. *)
Definition index_in_bounds (self : TypewriterText) : Prop :=
  0 <= current_index self <= len (full_text self).

(** The calls a host can make on a typewriter after constructing it. *)
Inductive op :=
| SetText (text : str) (now : Z)
| Update (now : Z)
| Complete.

Definition apply_op (self : TypewriterText) (o : op) : TypewriterText :=
  match o with
  | SetText text now => set_text text now self
  | Update now => update now self
  | Complete => complete self
  end.

Definition run (self : TypewriterText) (ops : list op) : TypewriterText :=
  fold_left apply_op ops self.

(** A schedule of [update] calls, one per frame, at the given clock values. *)
Definition run_updates (self : TypewriterText) (ticks : list Z) : TypewriterText :=
  fold_left (fun s now => update now s) ticks self.

(** ** TypewriterText.wrap_text

    [font_size line] stands for [self.font.size(line)[0]], the rendered
    pixel width of [line]; [max_width] for [self.max_width]. *)

Section Wrap.
Variable font_size : str -> Z.
Variable max_width : Z.

(** One turn of [for word in words]; the loop state is
    [(wrapped_lines, current_line)]. *)
Definition wrap_word (st : list str * str) (word : str) : list str * str :=
  let '(wrapped_lines, current_line) := st in
  let test_line := strip (current_line ++ py " " ++ word) in
  if font_size test_line <=? max_width
  then (wrapped_lines, test_line)
  else (wrapped_lines ++ [current_line], word).

(** One turn of [for paragraph in text.split('\n')]. *)
Definition wrap_paragraph (wrapped_lines : list str) (paragraph : str) : list str :=
  match strip paragraph with
  | [] => wrapped_lines ++ [py ""]
  | _ :: _ =>
      let words := split space paragraph in
      let '(wrapped_lines, current_line) :=
        fold_left wrap_word words (wrapped_lines, py "") in
      wrapped_lines ++ [current_line]
  end.

Definition wrap_text (text : str) : list str :=
  fold_left wrap_paragraph (split newline text) [].

(** The first two statements of [TypewriterText.draw]: the lines laid out
    for the revealed prefix. *)
Definition draw_lines (self : TypewriterText) : list str :=
  wrap_text (slice_to (current_index self) (full_text self)).
End Wrap.

(** ** Story data *)

(** A node of [choices_tree]: a dict with some of the keys ["text"],
    ["choices"], ["redirect"]. *)
Record Node := {
  node_text : option str;
  node_choices : option (list str);
  node_redirect : option str
}.

Definition content (t : str) (cs : list str) : Node :=
  {| node_text := Some t; node_choices := Some cs; node_redirect := None |}.

Definition alias (target : str) : Node :=
  {| node_text := None; node_choices := None; node_redirect := Some target |}.

Definition initial_story : str :=
  py "Chapter 1: The Awakening"
       ++ [10; 10]%N
       ++ py "You are playing a newly released game in a dark, silent room. It's your deserved reward after all."
       ++ [10]%N
       ++ py "You waited 14 years for it. Now it is finally available in your hand. Enjoying it is your virtue."
       ++ [10]%N
       ++ py "But some noise starts coming apart, disturbing your joy in the process.".

Definition choices_tree : gmap str Node :=
  list_to_map [
    (py "start",
     content
       initial_story
       [py "Investigate the noise";
        py "Ignore it"]);
    (py "1",
     content
       (py "You chose to investigate the noise. It becomes more static, giving eerie vibes and it grows louder."
       ++ [10]%N
       ++ py "Do you really want to investigate the sound or call someone?")
       [py "Yes, these things don't scare me anymore.";
        py "Call someone for help"]);
    (py "2",
     content
       (py "You chose to ignore the noise. You enjoy the loading screen and one specific picture."
       ++ [10]%N
       ++ py "Noise from outside starts growing?"
       ++ [10]%N
       ++ py "Do you want to investigate the sound or keep playing anyway?")
       [py "Ahh! So irritating";
        py "Keep playing anyway"]);
    (py "1_1",
     content
       (py "You move forward, braver now. After all, it's your home. If you don't protect it, who will? Bracing yourself, you cross the hallway to the door. There you see your coat hanging on a metal hanger.")
       [py "Wear coat";
        py "Wear coat and take metal hanger as weapon";
        py "Just enter"]);
    (py "1_2",
     content
       (py "You try to call someone, but there's no signal. You're confused"
       ++ [226; 8364; 8221]%N
       ++ py "the signal is always strong in this room.")
       [py "Investigate the sound by yourself";
        py "Go back and try again with your PC"]);
    (py "2_1",
     content
       (py "You stand up angrily. Irritated by the noise, you grab a nearby flashlight and the beer bottle you were about to enjoy with your game.")
       [py "Rush the hallway";
        py "Walk the hallway in a normal pace"]);
    (py "2_2",
     content
       (py "You keep playing. Now you control the playable character.")
       [py "Punch an NPC";
        py "Do a mission in the game"]);
    (py "1_1_1",
     content
       (py "You wear the coat. It feels heavier than usual, but provides a small sense of security. You grip the doorknob. It's strangely cold, almost unnaturally so as you slowly turn it. The noise on the other side stops abruptly. The silence is now even more terrifying than the noise was.")
       [py "fling the door open.";
        py "Open the door slowly and peek.";
        py "Call out,'Who's there?"]);
    (py "1_1_2",
     content
       (py "You wear the coat and rip the metal hanger off the hook. You bend it into a crude, sharp point. It feels better than nothing. You grip the doorknob. It's strangely cold, almost unnaturally so as you slowly turn it. The noise on the other side stops abruptly.")
       [py "fling the door open.";
        py "Open the door slowly and peek.";
        py "Call out, 'Who's there?'"]);
    (py "1_1_3",
     content
       (py "You decide to face whatever is there with your undies that you were wearing. You slowly, silently, turn the knob slowly which felt strangely cold and the noise beyond the door stop suddenly.")
       [py "Push the door fully open.";
        py "Close the door and reconsider."]);
    (py "1_2_1", alias (py "1_1"));
    (py "1_2_2",
     content
       (py "You decide this is too strange. You go back to your PC, You cancel the game that you were so desperate to play but you didn't download from offical website so you were redirected to a porn site.")
       [py "Try to close the porn site.";
        py "Enjoy it afterall who is looking?";
        py "Force shutdown the pc"]);
    (py "2_1_1",
     content
       (py "Fueled by annoyance, you rush down the hallway, flashlight beam bouncing wildly. You round the corner to the hallway and kicks open the door and the light falls on a oddly figure. It's tall, unnaturally thin, and turns its head towards you with an audible crack of neck.")
       [py "Throw the beer bottle at it.";
        py "Freeze and stare in it eyes."]);
    (py "2_1_2",
     content
       (py "You walk calmly, flashlight off, using the dim moonlight to see. The noise is a rhythmic scraping coming from the outside of hallway room. You open the door and light falls on a oddly figure. It's tall, unnaturally thin, and turns its head towards you with an audible crack of neck.")
       [py "Flick on the flashlight to startle it.";
        py "Quietly back away."]);
    (py "2_2_1",
     content
       (py "Every start of a game of Gta,we always punch a npc to celebrate the download of the game and so you did it. Keeping the tradition alive.")
       [py "Punch even more npc?";
        py "Investigate the sound that irritating you?"]);
    (py "2_2_2",
     content
       (py "You ignore the real-world noise and focus on the game. The quest-giver, a mafia, looks at you, but his dialogue box says, 'Gang B is has stolen ours supplies recover it or you dead' The text is bright red")
       [py "Kill the Npc.";
        py "Ask the NPC a question in-game.";
        py "Investigate the sound that irritating you?"]);
    (py "1_1_1_1",
     content
       (py "You throw the door open to an empty living room. You hear rough breathing sound towards a certain direction.")
       [py "Flash your flashlight towards it.";
        py "throw the flashlight at it.";
        py "Scream at it."]);
    (py "1_1_1_2",
     content
       (py "You peek out. Closing your flashlight so you can be like an assassin. You open the door slowly.")
       [py "Crawl on the surface.";
        py "Crouch on the surface and walk";
        py "Walk in this situation."]);
    (py "1_1_1_3",
     content
       (py "Your voice echoes in the silent house. There is no reply.")
       [py "Flash your flashlight at random direction";
        py "Shout once again";
        py "Go back inside"]);
    (py "1_1_2_1",
     content
       (py "You burst through the door with a war cry and enters the living room while flashing the light falls on an oddly figure. It's tall, unnaturally thin, and turns its head towards you with an audible crack of neck.")
       [py "Flash your flashlight on it.";
        py "Throw the nearby chair at it";
        py "Try to talk with it"]);
    (py "1_1_2_2",
     content
       (py "Holding your makeshift weapon in your hand you cautiously turn the doorknob, peeking through the door as cautiously as possible."
       ++ [10; 10]%N
       ++ py "What would you do next?")
       [py "Crawl on the surface.";
        py "Crouch on the surface and walk";
        py "Walk in this situation."]);
    (py "1_1_2_3",
     content
       (py "After opening the door. You call out by saying, 'Who's there? If you are a thief, you picked the wrong house, mate. I will call the police in a few seconds. You hear me, mate?'")
       [py "Wait for the response";
        py "Start calling the police";
        py "Step more forward with your flashlight."]);
    (py "1_1_3_1",
     content
       (py "You push the door open proudly. You don't need a weapon to respond to such danger or anything. Flashing your light, you see an oddly figure. It's tall and unnaturally thin. Turning its head slowly towards the direction of the light.")
       [py "'Who are you?' or 'What are you?'";
        py "Give a 'War cry'";
        py "Just go back inside"]);
    (py "1_1_3_2",
     content
       (py "You got an awakening and finally your one brain cell thought: 'Is it really okay to fight in my undies?'")
       [py "Wear the coat";
        py "Wear coat and take metal hanger as weapon";
        py "Just enter (again)"])
  ].

(** ** The main loop: key presses and choices *)

(** Key codes of pygame 2 (SDL2). *)
Definition K_ESCAPE : Z := 27.
Definition K_SPACE : Z := 32.
Definition K_1 : Z := 49.
Definition K_9 : Z := 57.
Definition K_F1 : Z := 1073741882.
Definition K_F4 : Z := 1073741885.

Inductive GameState := narrative | choice | ending.

(** The variables of [main] that the loop mutates. *)
Record Game := {
  running : bool;
  fullscreen : bool;
  game_state : GameState;
  current_node_key : str;
  typewriter : TypewriterText
}.

(** What handling one event does: it completes, or a dict subscript raises. *)
Inductive outcome :=
| Done (g : Game)
| KeyError (key : str).

Definition unwritten_message : str :=
  py "This path has not been written yet. The story ends here.".

Definition default_text : str := py "The story ends here.".

(** [choices_tree.get(key, {}).get("choices", [])] *)
Definition current_choices (tree : gmap str Node) (key : str) : list str :=
  match tree !! key with
  | Some node => default [] (node_choices node)
  | None => []
  end.

(** Lines 361-364: the key of the node a choice leads to. *)
Definition next_key (current : str) (choice_index : Z) : str :=
  if decide (current = py "start")
  then str_of_int (choice_index + 1)
  else current ++ py "_" ++ str_of_int (choice_index + 1).

(** Truth value of [node.get("choices")]. *)
Definition has_choices (node : Node) : bool :=
  match node_choices node with
  | Some (_ :: _) => true
  | _ => false
  end.

(** Lines 358-387: a choice index is applied to the current node. *)
Definition select_choice (tree : gmap str Node) (now : Z) (choice_index : Z)
    (g : Game) : outcome :=
  if (0 <=? choice_index)
     && (choice_index <? len (current_choices tree (current_node_key g)))
  then
    let nk := next_key (current_node_key g) choice_index in
    match tree !! nk with
    | Some target_node =>
        let key := match node_redirect target_node with
                   | Some target => target
                   | None => nk
                   end in
        match tree !! key with
        | Some node =>
            Done {| running := running g;
                    fullscreen := fullscreen g;
                    game_state := if has_choices node then narrative else ending;
                    current_node_key := key;
                    typewriter :=
                      set_text (default default_text (node_text node)) now
                               (typewriter g) |}
        | None => KeyError key
        end
    | None =>
        Done {| running := running g;
                fullscreen := fullscreen g;
                game_state := ending;
                current_node_key := current_node_key g;
                typewriter := set_text unwritten_message now (typewriter g) |}
    end
  else Done g.

(** Lines 354-356: the choice index a key stands for, [-1] for no choice. *)
Definition choice_index_of_key (key : Z) : Z :=
  if (K_1 <=? key) && (key <=? K_9) then key - K_1 else -1.

Definition is_narrative (s : GameState) : bool :=
  match s with narrative => true | _ => false end.

(** Lines 345-350: quit, fullscreen and skip keys. *)
Definition control_keys (key : Z) (g : Game) : Game :=
  if (key =? K_ESCAPE) || (key =? K_F1) then
    {| running := false; fullscreen := fullscreen g;
       game_state := game_state g; current_node_key := current_node_key g;
       typewriter := typewriter g |}
  else if key =? K_F4 then
    {| running := running g; fullscreen := negb (fullscreen g);
       game_state := game_state g; current_node_key := current_node_key g;
       typewriter := typewriter g |}
  else if (key =? K_SPACE) && is_narrative (game_state g) then
    {| running := running g; fullscreen := fullscreen g;
       game_state := game_state g; current_node_key := current_node_key g;
       typewriter := complete (typewriter g) |}
  else g.

(** Lines 344-387: a [KEYDOWN] event with key code [key], clock at [now]. *)
Definition on_keydown (tree : gmap str Node) (now : Z) (key : Z) (g : Game)
    : outcome :=
  let g := control_keys key g in
  match game_state g with
  | choice => select_choice tree now (choice_index_of_key key) g
  | _ => Done g
  end.

(** Lines 390-393: the typewriter advances, a finished narrative offers its
    choices. *)
Definition end_of_frame (now : Z) (g : Game) : Game :=
  let tw := update now (typewriter g) in
  {| running := running g; fullscreen := fullscreen g;
     game_state :=
       if is_narrative (game_state g) && is_finished tw then choice
       else game_state g;
     current_node_key := current_node_key g;
     typewriter := tw |}.

(** Lines 327-335: the variables of the loop once the typewriter has been
    constructed on the root node's text. *)
Definition initial_game (text : str) (now : Z) : Game :=
  {| running := true; fullscreen := false; game_state := narrative;
     current_node_key := py "start";
     typewriter := init text 30 now |}.

(** Lines 327-335: the state the loop starts from. Line 331 reads
    [choices_tree[current_node_key]["text"]], which raises when the story
    has no ["start"] node or that node has no ["text"]. *)
Definition start_game (tree : gmap str Node) (now : Z) : outcome :=
  match tree !! py "start" with
  | Some node =>
      match node_text node with
      | Some text => Done (initial_game text now)
      | None => KeyError (py "text")
      end
  | None => KeyError (py "start")
  end.

(** The events the loop looks at. *)
Inductive event :=
| Quit
| KeyDown (key : Z)
| OtherEvent.

(** Lines 341-387: one turn of [for event in pygame.event.get()]. *)
Definition on_event (tree : gmap str Node) (now : Z) (ev : event) (g : Game)
    : outcome :=
  match ev with
  | Quit =>
      Done {| running := false; fullscreen := fullscreen g;
              game_state := game_state g;
              current_node_key := current_node_key g;
              typewriter := typewriter g |}
  | KeyDown key => on_keydown tree now key g
  | OtherEvent => Done g
  end.

Definition and_then (o : outcome) (k : Game -> outcome) : outcome :=
  match o with
  | Done g => k g
  | KeyError key => KeyError key
  end.

(** One turn of [while running]: the pending events, each with the clock
    value it is handled at, then the end of the frame at clock [now]. *)
Definition loop_iteration (tree : gmap str Node) (events : list (Z * event))
    (now : Z) (g : Game) : outcome :=
  and_then
    (fold_left (fun o '(t, ev) => and_then o (on_event tree t ev)) events (Done g))
    (fun g => Done (end_of_frame now g)).

(** A session: the turns of [while running] from the initial state, each
    with its pending events and the clock at its end; turns after [running]
    has become false do not take place. *)
Definition play (tree : gmap str Node) (turns : list (list (Z * event) * Z))
    : outcome :=
  fold_left
    (fun o '(events, now) =>
       and_then o (fun g => if running g
                            then loop_iteration tree events now g
                            else Done g))
    turns (start_game tree 0).

(** The player skips the animation (SPACE) in one frame and presses the
    digit key of choice [i] in the next; [t] is the clock. *)
Definition skip_and_choose (t : Z) (i : Z) : list (list (Z * event) * Z) :=
  [ ([(t, KeyDown K_SPACE)], t + 1); ([(t + 2, KeyDown (K_1 + i))], t + 3) ].

(** The player skips the animation and waits for the choices. *)
Definition skip_to_choices (t : Z) : list (list (Z * event) * Z) :=
  [ ([(t, KeyDown K_SPACE)], t + 1) ].

(** ** Readings of the specification used to state where the code departs
    from it *)

(** A frame schedule at a fixed period: [n] frames, the k-th at clock
    [period * k]. *)
Definition frames (period : Z) (n : nat) : list Z :=
  map (fun k => period * Z.of_nat k) (seq 1 n).

(** The number of characters a fresh typewriter shows after a schedule of
    [update] calls, the clock starting at 0. *)
Definition revealed_by (delay_ms : Z) (text : str) (ticks : list Z) : Z :=
  current_index (run_updates (init text delay_ms 0) ticks).

(** The specification's words, "a strictly one-character-per-delay-interval
    reveal rate, frame-rate independent": two schedules of [update] calls
    that end at the same clock value reveal the same number of characters. *)
Definition spec_frame_rate_independent (delay_ms : Z) (text : str) : Prop :=
  forall ticks1 ticks2 : list Z,
    Sorted Z.lt (0 :: ticks1) -> Sorted Z.lt (0 :: ticks2) ->
    List.last ticks1 0 = List.last ticks2 0 ->
    revealed_by delay_ms text ticks1 = revealed_by delay_ms text ticks2.

(** The non-empty words of a line: [[w for w in line.split(' ') if w]]. *)
Definition words_of (line : str) : list str :=
  filter (fun w => w <> []) (split space line).

(** A fixed-pitch font: every character is [advance] pixels wide. *)
Definition fixed_pitch (advance : Z) (line : str) : Z := advance * len line.

(** Lines 212-214: the width of the text area of [main]. *)
Definition text_margin : Z := 10.
Definition text_max_width : Z := 780 - 2 * text_margin.

(** The specification's words on redirects: "resolving until a non-redirect
    node is found, detecting and failing on a cyclic redirect chain", the
    chain length being bounded by [bound]. [None] is the failure. *)
Fixpoint spec_resolve (tree : gmap str Node) (bound : nat) (key : str)
    : option Node :=
  match bound with
  | O => None
  | S bound' =>
      match tree !! key with
      | Some node =>
          match node_redirect node with
          | Some target => spec_resolve tree bound' target
          | None => Some node
          end
      | None => None
      end
  end.

(** Story data with a redirect to a redirect. *)
Definition chained_tree : gmap str Node :=
  list_to_map [
    (py "start", content (py "At the door.") [py "Enter"]);
    (py "1", alias (py "hall"));
    (py "hall", alias (py "vault"));
    (py "vault", content (py "The vault is open.") [py "Take the gold"])
  ].

(** Story data with a redirect cycle. *)
Definition cyclic_tree : gmap str Node :=
  list_to_map [
    (py "start", content (py "At the door.") [py "Enter"]);
    (py "1", alias (py "loop"));
    (py "loop", alias (py "1"))
  ].

(** A game waiting for a choice at node [key]. *)
Definition choosing_at (key : str) (shown : str) : Game :=
  {| running := true; fullscreen := false; game_state := choice;
     current_node_key := key;
     typewriter := complete (init shown 30 0) |}.

(** ** Further vocabulary for the typewriter *)

(** A call that keeps the text: [update] or [complete]. *)
Definition keeps_text (o : op) : bool :=
  match o with
  | SetText _ _ => false
  | Update _ | Complete => true
  end.

(** A schedule of clock values each more than [delay_ms] after the previous
    one, the first more than [delay_ms] after [last]. *)
Fixpoint well_spaced (delay_ms last : Z) (ticks : list Z) : Prop :=
  match ticks with
  | [] => True
  | t :: ticks' => delay_ms < t - last /\ well_spaced delay_ms t ticks'
  end.

(** The text on display: [self.full_text[:self.current_index]]. *)
Definition revealed (self : TypewriterText) : str :=
  slice_to (current_index self) (full_text self).

(** [sep.join(pieces)] *)
Fixpoint join (sep : str) (pieces : list str) : str :=
  match pieces with
  | [] => []
  | [piece] => piece
  | piece :: pieces' => piece ++ sep ++ join sep pieces'
  end.

(** ** Drawing *)

(** [s.startswith(prefix)] *)
Fixpoint startswith (prefix s : str) : bool :=
  match prefix, s with
  | [], _ => true
  | p :: prefix', c :: s' => N.eqb p c && startswith prefix' s'
  | _ :: _, [] => false
  end.

(** [sub in s] *)
Fixpoint contains (sub s : str) : bool :=
  startswith sub s
  || match s with
     | [] => false
     | _ :: s' => contains sub s'
     end.

(** [s.split(sep)] for a separator of one character or more, scanning from
    the left; [skip] is the number of characters of a separator just found
    that are still to be passed over. (Python rejects the empty separator;
    the source splits on a constant.) *)
Fixpoint split_at (sep : str) (skip : nat) (s : str) : list str :=
  match s with
  | [] => [[]]
  | c :: s' =>
      match skip with
      | S skip' => split_at sep skip' s'
      | O =>
          if startswith sep s
          then [] :: split_at sep (length sep - 1) s'
          else match split_at sep 0 s' with
               | piece :: pieces => (c :: piece) :: pieces
               | [] => [[c]]
               end
      end
  end.

Definition split_str (sep s : str) : list str := split_at sep 0 s.

Definition color := (Z * Z * Z)%type.
Definition WHITE : color := (255, 255, 255).
Definition RED : color := (255, 0, 0).

(** The constructor arguments of [TypewriterText] that drawing reads:
    [self.font] (through [size(s)[0]], [render(s, ...).get_width()] and
    [get_linesize()]), [self.pos], [self.max_width], [self.max_height],
    [self.color]. *)
Record Renderer := {
  font_size_of : str -> Z;
  font_render_width : str -> Z;
  font_linesize : Z;
  r_pos : Z * Z;
  r_max_width : Z;
  r_max_height : Z;
  r_color : color
}.

(** [surface.blit(self.font.render(text, True, color), (x, y))] *)
Record Blit := {
  blit_text : str;
  blit_color : color;
  blit_x : Z;
  blit_y : Z
}.

Definition highlight : str := py "14 years".

(** Lines 128-133: the segments, a red [highlight] after each but the
    last, laid out from [current_x]. *)
Fixpoint blit_segments (r : Renderer) (segments : list str) (current_x y : Z)
    : list Blit :=
  match segments with
  | [] => []
  | seg :: rest =>
      {| blit_text := seg; blit_color := r_color r;
         blit_x := current_x; blit_y := y |}
      :: match rest with
         | [] => []
         | _ :: _ =>
             {| blit_text := highlight; blit_color := RED;
                blit_x := current_x + font_render_width r seg; blit_y := y |}
             :: blit_segments r rest
                  (current_x + font_render_width r seg
                   + font_render_width r highlight) y
         end
  end.

(** [sum(seg.get_width() for seg in rendered_segments)] *)
Definition sum_widths (r : Renderer) (segments : list str) : Z :=
  fold_right Z.add 0 (map (font_render_width r) segments).

(** [TypewriterText.draw_line_with_formatting] *)
Definition draw_line_with_formatting (r : Renderer) (line : str)
    (base_x y : Z) (center : bool) : list Blit :=
  if contains highlight line then
    let segments := split_str highlight line in
    let total_width :=
      sum_widths r segments
      + font_render_width r highlight * (len segments - 1) in
    let current_x :=
      if center then base_x + (r_max_width r - total_width) / 2 else base_x in
    blit_segments r segments current_x y
  else
    let x :=
      if center
      then base_x + (r_max_width r - font_render_width r line) / 2
      else base_x in
    [ {| blit_text := line; blit_color := r_color r;
         blit_x := x; blit_y := y |} ].

(** Lines 147-153: where the first line goes. *)
Definition start_y_of (r : Renderer) (lines : list str) : Z :=
  let total_text_height := len lines * font_linesize r in
  if r_max_height r <? total_text_height
  then snd (r_pos r) + r_max_height r - total_text_height
  else snd (r_pos r).

(** [y_start_area <= y < y_start_area + self.max_height] *)
Definition in_band (r : Renderer) (y : Z) : bool :=
  (snd (r_pos r) <=? y) && (y <? snd (r_pos r) + r_max_height r).

(** Lines 156-162: the calls of [draw_line_with_formatting] made for the
    lines from index [i] on, as [(line, line_y, center_line)]. *)
Fixpoint line_calls (r : Renderer) (start_y : Z) (i : Z) (lines : list str)
    : list (str * Z * bool) :=
  match lines with
  | [] => []
  | line :: rest =>
      let line_y := start_y + i * font_linesize r in
      (if in_band r line_y
       then [(line, line_y, (i =? 0) && startswith (py "Chapter") (strip line))]
       else [])
      ++ line_calls r start_y (i + 1) rest
  end.

(** Lines 165-171: the cursor, when it is drawn. *)
Definition cursor_blit (r : Renderer) (now : Z) (self : TypewriterText)
    (lines : list str) : list Blit :=
  if negb (is_finished self) && ((now / 500) mod 2 =? 0) then
    let last_line_text := default (py "") (last lines) in
    let cursor_x := fst (r_pos r) + font_size_of r last_line_text in
    let cursor_y := start_y_of r lines + (len lines - 1) * font_linesize r in
    if in_band r cursor_y
    then [ {| blit_text := py "_"; blit_color := r_color r;
              blit_x := cursor_x; blit_y := cursor_y |} ]
    else []
  else [].

(** [TypewriterText.draw]: the blits made on the surface, in order; [now]
    is the clock read for the cursor. *)
Definition draw (r : Renderer) (now : Z) (self : TypewriterText) : list Blit :=
  let lines := draw_lines (font_size_of r) (r_max_width r) self in
  flat_map (fun '(line, line_y, center_line) =>
              draw_line_with_formatting r line (fst (r_pos r)) line_y center_line)
           (line_calls r (start_y_of r lines) 0 lines)
  ++ cursor_blit r now self lines.

(** The renderer [main] builds (lines 212-215, 330-335), for a fixed-pitch
    font whose characters are [advance] wide and whose lines are
    [linesize] apart. *)
Definition main_renderer (advance linesize : Z) : Renderer :=
  {| font_size_of := fixed_pitch advance;
     font_render_width := fixed_pitch advance;
     font_linesize := linesize;
     r_pos := (10 + text_margin, 30 + text_margin);
     r_max_width := text_max_width;
     r_max_height := 300 - 2 * text_margin;
     r_color := WHITE |}.

(** Blits that sit side by side on one row: the first at [x], each next one
    where the previous one ends, all at height [y]. *)
Fixpoint end_to_end (r : Renderer) (x y : Z) (blits : list Blit) : Prop :=
  match blits with
  | [] => True
  | b :: rest =>
      blit_x b = x /\ blit_y b = y
      /\ end_to_end r (x + font_render_width r (blit_text b)) y rest
  end.

(** ** Further vocabulary for the main loop *)

(** [play] from any state of the loop. *)
Definition play_from (tree : gmap str Node) (g : Game)
    (turns : list (list (Z * event) * Z)) : outcome :=
  fold_left
    (fun o '(events, now) =>
       and_then o (fun g => if running g
                            then loop_iteration tree events now g
                            else Done g))
    turns (Done g).

(** Every redirect of the story names a key of the story. *)
Definition redirects_closed (tree : gmap str Node) : Prop :=
  forall key node target,
    tree !! key = Some node -> node_redirect node = Some target ->
    is_Some (tree !! target).

(** The same, as a check that runs on the story data. *)
Definition check_redirects (tree : gmap str Node) : bool :=
  forallb (fun kn : str * Node =>
             match node_redirect (snd kn) with
             | Some target => bool_decide (is_Some (tree !! target))
             | None => true
             end)
          (map_to_list tree).

(** While the story goes on, the typewriter holds the text of the current
    node and that node offers choices. *)
Definition story_shown (tree : gmap str Node) (g : Game) : Prop :=
  match game_state g with
  | ending => True
  | narrative | choice =>
      exists node,
        tree !! current_node_key g = Some node
        /\ has_choices node = true
        /\ full_text (typewriter g) = default default_text (node_text node)
  end.

Definition GOLD : color := (255, 215, 0).
Definition GREEN : color := (0, 255, 255).

(** Lines 400-408: the menu drawn under the text area (whose bottom edge is
    at [30 + 300]) in the choice state. *)
Definition draw_choices (tree : gmap str Node) (g : Game) : list Blit :=
  match game_state g with
  | choice =>
      match current_choices tree (current_node_key g) with
      | [] => []
      | choices =>
          {| blit_text := py "What will you do?"; blit_color := GOLD;
             blit_x := 20; blit_y := 30 + 300 + 20 |}
          :: imap (fun i choice_ =>
                     {| blit_text :=
                          str_of_int (Z.of_nat i + 1) ++ py ". " ++ choice_;
                        blit_color := GREEN;
                        blit_x := 40;
                        blit_y := 30 + 300 + 50 + Z.of_nat i * 30 |})
                  choices
      end
  | _ => []
  end.

(** ** The typing sound *)

(** What is asked of the mixer channel: [typing_channel.play(self.sound)]
    and [typing_channel.stop()]. *)
Inductive sound_cmd := Play | Stop.

(** [TypewriterText.play_typing_sound]; [has_sound] tells whether a sound
    was loaded (the channel exists exactly then), [busy] is what
    [typing_channel.get_busy()] answers. *)
Definition play_typing_sound (has_sound busy : bool) : list sound_cmd :=
  if has_sound && has_sound && negb busy then [Play] else [].

(** The calls [TypewriterText.update] makes on the channel, in order. *)
Definition update_sound (has_sound busy : bool) (now : Z)
    (self : TypewriterText) : list sound_cmd :=
  (if negb (is_finished self) && (delay self <? now - last_update self)
   then play_typing_sound has_sound busy
   else [])
  ++ (if is_finished (update now self) && has_sound then [Stop] else []).

(** * Properties *)

(** ** The typewriter *)

Lemma len_nonneg {A} (s : list A) : 0 <= len s.
Proof. unfold len. lia. Qed.

Lemma is_finished_spec (self : TypewriterText) :
  is_finished self = true <-> len (full_text self) <= current_index self.
Proof. unfold is_finished. apply Z.leb_le. Qed.

Lemma set_text_in_bounds text now self : index_in_bounds (set_text text now self).
Proof. unfold index_in_bounds; simpl. pose proof (len_nonneg text). lia. Qed.

Lemma update_cases now self :
  (current_index self < len (full_text self)
   /\ delay self < now - last_update self
   /\ update now self =
        {| full_text := full_text self;
           current_index := current_index self + 1;
           last_update := now;
           delay := delay self |})
  \/ ((len (full_text self) <= current_index self
       \/ now - last_update self <= delay self)
      /\ update now self = self).
Proof.
  unfold update, is_finished.
  destruct (Z.leb_spec (len (full_text self)) (current_index self));
    destruct (Z.ltb_spec (delay self) (now - last_update self)); simpl;
    first [ left; repeat split; (lia || reflexivity)
          | right; split; [lia | reflexivity] ].
Qed.

(** Case analysis on what a call of [update] did: a reveal, or nothing. *)
Ltac case_update now self :=
  destruct (update_cases now self) as [(? & ? & ->) | (_ & ->)].

Lemma update_in_bounds now self :
  index_in_bounds self -> index_in_bounds (update now self).
Proof.
  unfold index_in_bounds.
  case_update now self; simpl; lia.
Qed.

Lemma complete_in_bounds self : index_in_bounds (complete self).
Proof. unfold index_in_bounds; simpl. pose proof (len_nonneg (full_text self)). lia. Qed.

Lemma apply_op_in_bounds self o :
  index_in_bounds self -> index_in_bounds (apply_op self o).
Proof.
  destruct o; simpl; intros.
  - apply set_text_in_bounds.
  - now apply update_in_bounds.
  - apply complete_in_bounds.
Qed.

Lemma run_snoc self ops o : run self (ops ++ [o]) = apply_op (run self ops) o.
Proof. unfold run. now rewrite fold_left_app. Qed.

Lemma run_in_bounds self ops :
  index_in_bounds self -> index_in_bounds (run self ops).
Proof.
  revert self. induction ops as [|o ops IH]; simpl; intros self H; [exact H|].
  apply IH. now apply apply_op_in_bounds.
Qed.

Lemma update_monotone now self : current_index self <= current_index (update now self).
Proof.
  case_update now self; simpl; lia.
Qed.

(** C5. Reveal-count invariant: after any sequence of [set_text], [update]
    and [complete] calls on a freshly constructed typewriter the revealed
    count lies between 0 and the length of the full text; a further [update]
    or [complete] never decreases it (so it never brings a positive count
    back to 0), while construction and [set_text] leave it at 0. *)
Theorem reveal_count_invariant (text : str) (delay_ms t0 : Z) (ops : list op) (o : op) :
  let s := run (init text delay_ms t0) ops in
  let s' := apply_op s o in
  current_index (init text delay_ms t0) = 0
  /\ 0 <= current_index s <= len (full_text s)
  /\ 0 <= current_index s' <= len (full_text s')
  /\ match o with
     | SetText _ _ => current_index s' = 0
     | Update _ | Complete =>
         current_index s <= current_index s'
         /\ full_text s' = full_text s
         /\ (current_index s' = 0 <-> current_index s = 0 /\ s' = s)
     end.
Proof.
  intros s s'.
  assert (Hs : index_in_bounds s)
    by (apply run_in_bounds, set_text_in_bounds).
  subst s'. clearbody s.
  pose proof (apply_op_in_bounds s o Hs) as Hs'.
  split; [reflexivity|]. split; [exact Hs|]. split; [exact Hs'|].
  unfold index_in_bounds in *.
  destruct o as [txt now | now | ]; simpl in *.
  - reflexivity.
  - case_update now s; simpl.
    + split; [lia|]. split; [reflexivity|]. split; [lia|].
      intros [_ E]. apply (f_equal current_index) in E. simpl in E. lia.
    + split; [lia|]. split; [reflexivity|]. tauto.
  - split; [lia|]. split; [reflexivity|]. split.
    + intros H0. split; [lia|].
      destruct s; unfold complete; simpl in *. f_equal. lia.
    + intros [H0 E]. apply (f_equal current_index) in E. simpl in E. lia.
Qed.

(** C7. Finished-state contract: in every state a typewriter can reach,
    [is_finished] holds exactly when the revealed count equals the length of
    the full text; and after [complete], from any state whatever,
    [is_finished] holds. *)
Theorem finished_contract (text : str) (delay_ms t0 : Z) (ops : list op)
    (self : TypewriterText) :
  let s := run (init text delay_ms t0) ops in
  (is_finished s = true <-> current_index s = len (full_text s))
  /\ is_finished (complete self) = true.
Proof.
  intros s.
  assert (Hs : index_in_bounds s)
    by (apply run_in_bounds, set_text_in_bounds).
  unfold index_in_bounds in Hs. rewrite is_finished_spec. split.
  - lia.
  - apply is_finished_spec. simpl. lia.
Qed.

Lemma update_keeps_delay now self : delay (update now self) = delay self.
Proof.
  case_update now self; reflexivity.
Qed.

Lemma update_keeps_text now self : full_text (update now self) = full_text self.
Proof.
  case_update now self; reflexivity.
Qed.

(** Each reveal moves [last_update] forward by more than [delay]; a call
    that reveals nothing leaves it alone. *)
Lemma update_rate_step now self :
  (current_index (update now self) - current_index self) * (delay self + 1)
  <= last_update (update now self) - last_update self
  /\ current_index (update now self) <= current_index self + 1.
Proof.
  case_update now self; simpl; lia.
Qed.

Lemma run_updates_rate ticks : forall self,
  let self' := run_updates self ticks in
  current_index self <= current_index self' <= current_index self + len ticks
  /\ (current_index self' - current_index self) * (delay self + 1)
     <= last_update self' - last_update self
  /\ delay self' = delay self
  /\ full_text self' = full_text self.
Proof.
  induction ticks as [|now ticks IH]; intros self; simpl.
  - unfold len; simpl. repeat split; lia.
  - specialize (IH (update now self)). simpl in IH.
    fold (run_updates (update now self) ticks) in *.
    destruct IH as (Hidx & Hrate & Hd & Ht).
    rewrite update_keeps_delay in Hrate, Hd.
    rewrite update_keeps_text in Ht.
    pose proof (update_rate_step now self) as [Hstep Hone].
    pose proof (update_monotone now self) as Hmono.
    unfold len in *. simpl length. rewrite Nat2Z.inj_succ.
    repeat split; try lia; assumption.
Qed.

(** C6, as the code has it. [update] reveals exactly one more character
    precisely when the text is unfinished and more than [delay] has elapsed
    on the clock since the last reveal, and otherwise changes nothing. Over
    any schedule of [update] calls the count grows by at most one per call,
    and every reveal is more than [delay] after the previous one: the
    characters revealed, times [delay + 1], fit in the clock time by which
    [last_update] advanced. The rate is bounded by the call frequency, not
    independent of it. *)
Theorem update_reveal_rule (now : Z) (self : TypewriterText) (ticks : list Z) :
  let due := (current_index self <? len (full_text self))
             && (delay self <? now - last_update self) in
  let self' := run_updates self ticks in
  update now self =
    (if due
     then {| full_text := full_text self;
             current_index := current_index self + 1;
             last_update := now;
             delay := delay self |}
     else self)
  /\ (current_index (update now self) = current_index self + 1 <-> due = true)
  /\ current_index self <= current_index self' <= current_index self + len ticks
  /\ (current_index self' - current_index self) * (delay self + 1)
     <= last_update self' - last_update self.
Proof.
  intros due self'. subst due.
  split; [|split].
  - unfold update, is_finished.
    destruct (Z.leb_spec (len (full_text self)) (current_index self));
      destruct (Z.ltb_spec (current_index self) (len (full_text self)));
      try lia; reflexivity.
  - destruct (update_cases now self) as [(Hlt & Hd & ->) | (Hno & ->)]; simpl.
    + split; [intros _ | reflexivity].
      apply andb_true_iff. split; apply Z.ltb_lt; assumption.
    + split; [lia|]. intros H. apply andb_true_iff in H as [H1 H2].
      apply Z.ltb_lt in H1, H2. lia.
  - pose proof (run_updates_rate ticks self) as H. simpl in H.
    destruct H as (H1 & H2 & _). split; assumption.
Qed.

(** C6, as the specification words it, fails. With the delay of 30 used by
    [main], ten frames per second reveal 3 characters in 300 clock units and
    a hundred frames per second reveal 7, where one character per delay
    interval would be 10: the count depends on how often [update] is
    called. *)
Lemma reveal_rate_depends_on_frame_rate :
  revealed_by 30 default_text (frames 100 3) = 3
  /\ revealed_by 30 default_text (frames 10 30) = 7
  /\ List.last (frames 100 3) 0 = 300 /\ List.last (frames 10 30) 0 = 300
  /\ 300 / 30 = 10
  /\ ~ spec_frame_rate_independent 30 default_text.
Proof.
  assert (H1 : revealed_by 30 default_text (frames 100 3) = 3) by reflexivity.
  assert (H2 : revealed_by 30 default_text (frames 10 30) = 7) by reflexivity.
  repeat split; try reflexivity.
  intros Hspec.
  specialize (Hspec (frames 100 3) (frames 10 30)).
  rewrite H1, H2 in Hspec.
  assert (3 = 7) as Habs; [|discriminate Habs].
  apply Hspec; [| |reflexivity].
  - unfold frames; simpl. repeat constructor; lia.
  - unfold frames; simpl. repeat constructor; lia.
Qed.

(** ** Strings: [split] and [strip] *)

Lemma split_nonempty sep s : split sep s <> [].
Proof.
  destruct s as [|c s]; simpl; [discriminate|].
  destruct (N.eqb c sep); [discriminate|].
  destruct (split sep s); discriminate.
Qed.

(** Splitting distributes over a separator: the law behind "a newline is a
    forced line break" and "a space separates two words". *)
Lemma split_app sep a b :
  split sep (a ++ sep :: b) = split sep a ++ split sep b.
Proof.
  induction a as [|c a IH]; simpl.
  - now rewrite N.eqb_refl.
  - destruct (N.eqb c sep); [now rewrite IH|].
    rewrite IH. pose proof (split_nonempty sep a) as Hne.
    destruct (split sep a); [contradiction|reflexivity].
Qed.

Lemma split_no_sep sep s : ~ In sep s -> split sep s = [s].
Proof.
  induction s as [|c s IH]; simpl; intros Hnot; [reflexivity|].
  destruct (N.eqb_spec c sep) as [->|Hne]; [tauto|].
  rewrite IH by tauto. reflexivity.
Qed.

Lemma split_pieces_no_sep sep s piece :
  In piece (split sep s) -> ~ In sep piece.
Proof.
  revert piece. induction s as [|c s IH]; simpl; intros piece Hin.
  - destruct Hin as [<-|[]]. simpl. tauto.
  - destruct (N.eqb_spec c sep) as [->|Hne].
    + destruct Hin as [<-|Hin]; [simpl; tauto|now apply IH].
    + pose proof (split_nonempty sep s) as Hnil.
      destruct (split sep s) as [|p ps]; [contradiction|].
      destruct Hin as [<-|Hin].
      * simpl. intros [E|Hp]; [congruence|].
        apply (IH p); [now left|assumption].
      * apply IH. now right.
Qed.

Lemma lstrip_length s : (length (lstrip s) <= length s)%nat.
Proof.
  induction s as [|c s IH]; simpl; [lia|].
  destruct (isspace c); simpl; lia.
Qed.

Lemma lstrip_fixed_iff s :
  lstrip s = s <-> match s with [] => True | c :: _ => isspace c = false end.
Proof.
  destruct s as [|c s]; simpl; [tauto|].
  destruct (isspace c) eqn:Hc.
  - split; [|discriminate]. intros E.
    pose proof (lstrip_length s) as Hlen. rewrite E in Hlen. simpl in Hlen. lia.
  - tauto.
Qed.

Lemma rstrip_length s : (length (rstrip s) <= length s)%nat.
Proof.
  unfold rstrip. rewrite length_rev.
  pose proof (lstrip_length (rev s)) as H. now rewrite length_rev in H.
Qed.

(** [strip] leaves a string alone exactly when neither end is whitespace. *)
Lemma strip_fixed_iff s :
  strip s = s <-> lstrip s = s /\ lstrip (rev s) = rev s.
Proof.
  unfold strip, rstrip. split.
  - intros E.
    assert (Hl : lstrip s = s).
    { apply lstrip_fixed_iff. destruct s as [|c s]; [exact I|].
      destruct (isspace c) eqn:Hc; [|reflexivity]. exfalso.
      apply (f_equal (@length _)) in E. rewrite length_rev in E.
      pose proof (lstrip_length (rev (lstrip (c :: s)))) as H1.
      rewrite length_rev in H1.
      simpl in E, H1. rewrite Hc in E, H1.
      pose proof (lstrip_length s). simpl in *. lia. }
    split; [exact Hl|]. rewrite Hl in E.
    apply (f_equal (@rev _)) in E. now rewrite rev_involutive in E.
  - intros [-> ->]. apply rev_involutive.
Qed.

Lemma lstrip_app_fixed a b : a <> [] -> lstrip a = a -> lstrip (a ++ b) = a ++ b.
Proof.
  intros Hne Ha. apply lstrip_fixed_iff. apply lstrip_fixed_iff in Ha.
  destruct a; [contradiction|exact Ha].
Qed.

(** What [strip] does to the test line [f"{current_line} {word}"] when both
    parts are free of whitespace at their ends. *)
Lemma strip_test_line cur word :
  strip cur = cur -> strip word = word ->
  strip (cur ++ py " " ++ word) =
    match cur, word with
    | [], _ => word
    | _, [] => cur
    | _, _ => cur ++ py " " ++ word
    end.
Proof.
  intros Hc Hw. change (py " ") with [space]. simpl.
  destruct cur as [|c cur].
  - simpl. unfold strip at 1. simpl. exact Hw.
  - apply strip_fixed_iff in Hc as [Hc1 Hc2].
    destruct word as [|w word].
    + unfold strip. rewrite lstrip_app_fixed by (assumption || discriminate).
      unfold rstrip. rewrite rev_app_distr. simpl rev at 1. simpl.
      change (rev cur ++ [c]) with (rev (c :: cur)).
      rewrite Hc2. apply rev_involutive.
    + apply strip_fixed_iff in Hw as [Hw1 Hw2].
      apply strip_fixed_iff. split.
      * apply lstrip_app_fixed; [discriminate|assumption].
      * rewrite rev_app_distr.
        change (rev (space :: w :: word)) with (rev (w :: word) ++ [space]).
        rewrite <- app_assoc. apply lstrip_app_fixed; [|assumption].
        simpl. destruct (rev word); discriminate.
Qed.

Lemma strip_test_line_fixed cur word :
  strip cur = cur -> strip word = word ->
  strip (strip (cur ++ py " " ++ word)) = strip (cur ++ py " " ++ word).
Proof.
  intros Hc Hw. rewrite (strip_test_line cur word Hc Hw).
  destruct cur as [|c cur]; [exact Hw|].
  destruct word as [|w word]; [exact Hc|].
  apply (strip_test_line (c :: cur) (w :: word) Hc Hw).
Qed.

Lemma strip_all_space s : forallb isspace s = true -> strip s = [].
Proof.
  intros H. assert (Hl : lstrip s = []).
  { induction s as [|c s IH]; [reflexivity|]. simpl in *.
    apply andb_true_iff in H as [-> H]. now apply IH. }
  unfold strip. now rewrite Hl.
Qed.

(** ** Word wrap *)

Section WrapProperties.
Variable font_size : str -> Z.
Variable max_width : Z.

Lemma wrap_word_eq acc cur word :
  wrap_word font_size max_width (acc, cur) word =
  if font_size (strip (cur ++ py " " ++ word)) <=? max_width
  then (acc, strip (cur ++ py " " ++ word))
  else (acc ++ [cur], word).
Proof. reflexivity. Qed.

(** The lines already emitted are never touched by the word loop. *)
Lemma wrap_words_acc words : forall acc cur,
  fold_left (wrap_word font_size max_width) words (acc, cur) =
  (acc ++ fst (fold_left (wrap_word font_size max_width) words ([], cur)),
   snd (fold_left (wrap_word font_size max_width) words ([], cur))).
Proof.
  induction words as [|w words IH]; intros acc cur.
  - simpl. now rewrite app_nil_r.
  - cbn [fold_left]. rewrite !wrap_word_eq.
    destruct (font_size (strip (cur ++ py " " ++ w)) <=? max_width).
    + apply IH.
    + rewrite IH. rewrite (IH ([] ++ [cur]) w). cbn [fst snd].
      now rewrite <- app_assoc.
Qed.

Lemma wrap_paragraph_acc acc paragraph :
  wrap_paragraph font_size max_width acc paragraph
  = acc ++ wrap_paragraph font_size max_width [] paragraph.
Proof.
  unfold wrap_paragraph. destruct (strip paragraph); [reflexivity|].
  rewrite wrap_words_acc.
  destruct (fold_left (wrap_word font_size max_width) (split space paragraph) ([], py "")) as [ls cur].
  cbn [fst snd]. now rewrite app_assoc.
Qed.

Lemma wrap_paragraphs_concat paragraphs : forall acc,
  fold_left (wrap_paragraph font_size max_width) paragraphs acc = acc ++ concat (map (wrap_paragraph font_size max_width []) paragraphs).
Proof.
  induction paragraphs as [|p ps IH]; intros acc; simpl.
  - now rewrite app_nil_r.
  - rewrite IH, wrap_paragraph_acc. now rewrite <- app_assoc.
Qed.

(** [wrap_text] lays the paragraphs out one after the other. *)
Lemma wrap_text_paragraphs text :
  wrap_text font_size max_width text =
  concat (map (wrap_paragraph font_size max_width []) (split newline text)).
Proof.
  unfold wrap_text. now rewrite wrap_paragraphs_concat.
Qed.


(** *** Widths *)



(** *** Words *)

Lemma words_of_app a b : words_of (a ++ space :: b) = words_of a ++ words_of b.
Proof. unfold words_of. now rewrite split_app, filter_app. Qed.

Lemma words_of_snoc (ls : list str) (l : str) :
  concat (map words_of (ls ++ [l])) = concat (map words_of ls) ++ words_of l.
Proof. rewrite map_app, concat_app. simpl. now rewrite app_nil_r. Qed.

Lemma words_of_test_line cur word :
  strip cur = cur -> strip word = word ->
  words_of (strip (cur ++ py " " ++ word)) = words_of cur ++ words_of word.
Proof.
  intros Hc Hw. rewrite (strip_test_line cur word Hc Hw).
  destruct cur as [|c cur]; [reflexivity|].
  destruct word as [|w word].
  - change (words_of []) with (@nil str). now rewrite app_nil_r.
  - change (py " ") with [space]. apply words_of_app.
Qed.

Lemma wrap_words_words words : forall acc cur,
  strip cur = cur -> Forall (fun w => strip w = w) words ->
  concat (map words_of (fst (fold_left (wrap_word font_size max_width) words (acc, cur))))
  ++ words_of (snd (fold_left (wrap_word font_size max_width) words (acc, cur)))
  = concat (map words_of acc) ++ words_of cur ++ concat (map words_of words).
Proof.
  induction words as [|w words IH]; intros acc cur Hcur Hws.
  - simpl. now rewrite app_nil_r.
  - apply Forall_cons in Hws as [Hw Hws].
    cbn [fold_left]. rewrite !wrap_word_eq.
    destruct (font_size (strip (cur ++ py " " ++ w)) <=? max_width).
    + rewrite IH; [|now apply strip_test_line_fixed|assumption].
      rewrite words_of_test_line by assumption.
      simpl. now rewrite <- !app_assoc.
    + rewrite IH by assumption. rewrite words_of_snoc.
      simpl. now rewrite <- !app_assoc.
Qed.

End WrapProperties.

Lemma words_of_pieces (pieces : list str) :
  Forall (fun w => ~ In space w) pieces ->
  concat (map words_of pieces) = filter (fun w => w <> []) pieces.
Proof.
  induction 1 as [|w ws Hw _ IH]; [reflexivity|].
  simpl. rewrite IH. unfold words_of at 1. rewrite (split_no_sep _ _ Hw).
  rewrite filter_cons. rewrite (filter_cons _ w ws).
  destruct (decide (w <> [])); reflexivity.
Qed.

Lemma words_of_split line :
  concat (map words_of (split space line)) = words_of line.
Proof.
  apply words_of_pieces. apply Forall_forall. intros w Hw.
  apply list_elem_of_In in Hw. now apply split_pieces_no_sep in Hw.
Qed.



(** C9, as the code has it. Wrapping the empty string produces exactly one
    line, the blank line (so a typewriter that has revealed nothing yet lays
    out one blank line); every paragraph made of whitespace only contributes
    exactly one blank line, the output being the lines of the
    newline-delimited paragraphs one after the other. *)
Theorem wrap_text_blank (font_size : str -> Z) (max_width : Z)
    (text : str) (now : Z) (self : TypewriterText) :
  wrap_text font_size max_width (py "") = [py ""]
  /\ draw_lines font_size max_width (set_text text now self) = [py ""]
  /\ (forall paragraph acc,
        forallb isspace paragraph = true ->
        wrap_paragraph font_size max_width acc paragraph = acc ++ [py ""])
  /\ wrap_text font_size max_width text
     = concat (map (wrap_paragraph font_size max_width [])
                   (split newline text)).
Proof.
  split; [reflexivity|]. split; [reflexivity|]. split.
  - intros paragraph acc Hsp. unfold wrap_paragraph.
    now rewrite (strip_all_space paragraph Hsp).
  - apply wrap_text_paragraphs.
Qed.

(** C9, as the specification words it, fails in its first half: the empty
    text is wrapped to one (blank) line, not to zero lines. *)
Lemma wrap_text_empty_is_one_line :
  wrap_text (fixed_pitch 10) text_max_width (py "") = [py ""]
  /\ length (wrap_text (fixed_pitch 10) text_max_width (py "")) = 1%nat
  /\ wrap_text (fixed_pitch 10) text_max_width (py "") <> [].
Proof. split; [reflexivity|]. split; [reflexivity|discriminate]. Qed.

(** C10, as the code has it. For a paragraph that is not blank and whose
    words (the pieces between spaces) neither begin nor end with a
    whitespace character, the non-empty words of the lines emitted for it,
    taken in order, are exactly the non-empty words of the paragraph,
    whatever the font and the width. *)
Theorem wrap_preserves_words (font_size : str -> Z) (max_width : Z)
    (paragraph : str) :
  strip paragraph <> [] ->
  Forall (fun w => strip w = w) (split space paragraph) ->
  concat (map words_of (wrap_paragraph font_size max_width [] paragraph))
  = words_of paragraph.
Proof.
  intros Hne Hclean. unfold wrap_paragraph.
  destruct (strip paragraph) as [|c rest]; [contradiction|].
  pose proof (wrap_words_words font_size max_width
                (split space paragraph) [] (py "") eq_refl Hclean) as H.
  simpl in H.
  destruct (fold_left (wrap_word font_size max_width)
              (split space paragraph) ([], py "")) as [ls cur].
  simpl in *. rewrite words_of_snoc, H. apply words_of_split.
Qed.

Lemma wrap_preserves_words_witness :
  strip (py "You waited 14 years for it.") <> []
  /\ Forall (fun w => strip w = w) (split space (py "You waited 14 years for it."))
  /\ concat (map words_of
       (wrap_paragraph (fixed_pitch 10) 100 [] (py "You waited 14 years for it.")))
     = words_of (py "You waited 14 years for it.").
Proof.
  assert (Hne : strip (py "You waited 14 years for it.") <> [])
    by (vm_compute; discriminate).
  assert (Hclean : Forall (fun w => strip w = w)
                     (split space (py "You waited 14 years for it.")))
    by (vm_compute; repeat constructor).
  split; [exact Hne|]. split; [exact Hclean|].
  exact (wrap_preserves_words (fixed_pitch 10) 100
           (py "You waited 14 years for it.") Hne Hclean).
Defined.

(** C10, stated for every text, fails: a word made of a tab is stripped
    away when the line is assembled. *)
Lemma wrap_drops_tab_word :
  let paragraph := py "a " ++ [9%N] ++ py " b" in
  strip paragraph <> []
  /\ wrap_text (fixed_pitch 10) text_max_width paragraph = [py "a b"]
  /\ words_of paragraph = [py "a"; [9%N]; py "b"]
  /\ concat (map words_of (wrap_text (fixed_pitch 10) text_max_width paragraph))
     = [py "a"; py "b"]
  /\ concat (map words_of (wrap_text (fixed_pitch 10) text_max_width paragraph))
     <> words_of paragraph.
Proof.
  cbv zeta. split; [vm_compute; discriminate|].
  split; [reflexivity|]. split; [reflexivity|]. split; [reflexivity|].
  vm_compute. discriminate.
Qed.

(** ** The story navigator *)

Example play_to_2_2_1 :
  exists g, play choices_tree
              (skip_and_choose 0 1 ++ skip_and_choose 10 1
               ++ skip_and_choose 20 0 ++ skip_to_choices 30) = Done g
            /\ current_node_key g = py "2_2_1" /\ game_state g = choice.
Proof. eexists. split; [vm_compute; reflexivity|]. split; reflexivity. Qed.

Lemma in_range_test (i n : Z) : 0 <= i < n -> (0 <=? i) && (i <? n) = true.
Proof.
  intros [H0 Hn]. apply andb_true_iff. split; [now apply Z.leb_le|now apply Z.ltb_lt].
Qed.

Lemma out_of_range_test (i n : Z) : ~ (0 <= i < n) -> (0 <=? i) && (i <? n) = false.
Proof.
  intros H. apply andb_false_iff.
  destruct (Z.leb_spec 0 i); [|now left].
  destruct (Z.ltb_spec i n); [lia|now right].
Qed.

(** In the choice state a digit key is a choice and nothing else. *)
Lemma on_keydown_digit (tree : gmap str Node) (now key : Z) (g : Game) :
  game_state g = choice -> K_1 <= key <= K_9 ->
  on_keydown tree now key g = select_choice tree now (key - K_1) g.
Proof.
  unfold K_1, K_9. intros Hstate Hkey. unfold on_keydown, control_keys.
  replace ((key =? K_ESCAPE) || (key =? K_F1)) with false
    by (unfold K_ESCAPE, K_F1; symmetry; apply orb_false_iff; lia).
  replace (key =? K_F4) with false by (unfold K_F4; lia).
  replace (key =? K_SPACE) with false by (unfold K_SPACE; lia).
  simpl. rewrite Hstate. unfold choice_index_of_key, K_1, K_9.
  replace ((49 <=? key) && (key <=? 57)) with true
    by (symmetry; apply andb_true_iff; lia).
  reflexivity.
Qed.

(** C1. Key derivation: from ["start"] the choice at index [i] derives the
    key [str(i+1)], from any other key [K] it derives [K + "_" + str(i+1)];
    an in-range choice whose derived key holds a content node moves the
    game to that key. On the shipped story, the first choice at the root
    leads to node ["1"] and the second to node ["2"]. *)
Theorem next_key_derivation (tree : gmap str Node) (now i : Z) (g : Game)
    (K : str) :
  next_key (py "start") i = str_of_int (i + 1)
  /\ (K <> py "start" -> next_key K i = K ++ py "_" ++ str_of_int (i + 1))
  /\ (0 <= i < len (current_choices tree (current_node_key g)) ->
      forall node,
        tree !! next_key (current_node_key g) i = Some node ->
        node_redirect node = None ->
        exists g', select_choice tree now i g = Done g'
                   /\ current_node_key g' = next_key (current_node_key g) i)
  /\ (exists g0 g1 g2,
        play choices_tree (skip_to_choices 0) = Done g0
        /\ current_node_key g0 = py "start" /\ game_state g0 = choice
        /\ on_keydown choices_tree now K_1 g0 = Done g1
        /\ current_node_key g1 = py "1"
        /\ on_keydown choices_tree now (K_1 + 1) g0 = Done g2
        /\ current_node_key g2 = py "2").
Proof.
  split; [reflexivity|]. split; [|split].
  - intros HK. unfold next_key. destruct (decide (K = py "start")); [contradiction|reflexivity].
  - intros Hi node Hnode Hred. unfold select_choice.
    rewrite (in_range_test _ _ Hi). cbv zeta. rewrite Hnode, Hred, Hnode.
    eexists. split; reflexivity.
  - eexists _, _, _. split; [vm_compute; reflexivity|].
    split; [reflexivity|]. split; [reflexivity|].
    split; [vm_compute; reflexivity|]. split; [reflexivity|].
    split; [vm_compute; reflexivity|]. reflexivity.
Qed.

(** C2. Unwritten-path fallback: an in-range choice whose derived key is
    absent from the story raises nothing; the game enters the ending state,
    the typewriter holds exactly the fallback message as its full text, with
    nothing revealed yet and the clock of the choice as its last tick, and
    the current node key stays as it was. In the choice state this is what
    the digit key of that choice does. *)
Theorem unwritten_path_fallback (tree : gmap str Node) (now i : Z) (g : Game) :
  0 <= i < len (current_choices tree (current_node_key g)) ->
  tree !! next_key (current_node_key g) i = None ->
  select_choice tree now i g =
    Done {| running := running g;
            fullscreen := fullscreen g;
            game_state := ending;
            current_node_key := current_node_key g;
            typewriter :=
              {| full_text :=
                   py "This path has not been written yet. The story ends here.";
                 current_index := 0;
                 last_update := now;
                 delay := delay (typewriter g) |} |}
  /\ (game_state g = choice -> i <= 8 ->
      on_keydown tree now (K_1 + i) g = select_choice tree now i g).
Proof.
  intros Hi Habsent. split.
  - unfold select_choice.
    rewrite (in_range_test _ _ Hi). cbv zeta. now rewrite Habsent.
  - intros Hstate Hdigit. rewrite on_keydown_digit.
    + f_equal. lia.
    + exact Hstate.
    + unfold K_1, K_9. lia.
Qed.

Lemma unwritten_path_fallback_witness :
  exists g,
    play choices_tree
      (skip_and_choose 0 1 ++ skip_and_choose 10 1
       ++ skip_and_choose 20 0 ++ skip_to_choices 30) = Done g
    /\ current_node_key g = py "2_2_1"
    /\ 0 <= 0 < len (current_choices choices_tree (current_node_key g))
    /\ choices_tree !! next_key (current_node_key g) 0 = None
    /\ select_choice choices_tree 40 0 g =
         Done {| running := running g;
                 fullscreen := fullscreen g;
                 game_state := ending;
                 current_node_key := current_node_key g;
                 typewriter :=
                   {| full_text :=
                        py "This path has not been written yet. The story ends here.";
                      current_index := 0;
                      last_update := 40;
                      delay := delay (typewriter g) |} |}
    /\ on_keydown choices_tree 40 K_1 g = select_choice choices_tree 40 0 g.
Proof.
  eexists. split; [vm_compute; reflexivity|]. split; [reflexivity|].
  match goal with
  | |- ?A /\ ?B /\ _ =>
      assert (Ha : A) by (vm_compute; split; [discriminate|reflexivity]);
      assert (Hb : B) by (vm_compute; reflexivity)
  end.
  split; [exact Ha|]. split; [exact Hb|].
  destruct (unwritten_path_fallback choices_tree 40 0 _ Ha Hb) as [Hsel Hkey].
  split; [exact Hsel|]. apply Hkey; [reflexivity|lia].
Defined.

(** C3, as the code has it. When the derived key holds a redirect whose
    target key is in the story, the redirect is followed exactly once: the
    current key becomes the target, the full text of the typewriter is the
    text stored under the target (["The story ends here."] when it stores
    none) with nothing revealed yet, the choices offered next are those
    stored under the target, and the game is in the narrative state when
    there are some and in the ending state otherwise. Nothing is resolved
    further. *)
Theorem redirect_followed_once (tree : gmap str Node) (now i : Z) (g : Game)
    (target_node node : Node) (target : str) :
  0 <= i < len (current_choices tree (current_node_key g)) ->
  tree !! next_key (current_node_key g) i = Some target_node ->
  node_redirect target_node = Some target ->
  tree !! target = Some node ->
  select_choice tree now i g =
    Done {| running := running g;
            fullscreen := fullscreen g;
            game_state := if has_choices node then narrative else ending;
            current_node_key := target;
            typewriter :=
              {| full_text :=
                   default (py "The story ends here.") (node_text node);
                 current_index := 0;
                 last_update := now;
                 delay := delay (typewriter g) |} |}
  /\ current_choices tree target = default [] (node_choices node).
Proof.
  intros Hi Hnk Hred Htarget. split.
  - unfold select_choice. rewrite (in_range_test _ _ Hi). cbv zeta.
    now rewrite Hnk, Hred, Htarget.
  - unfold current_choices. now rewrite Htarget.
Qed.

Lemma redirect_followed_once_witness :
  exists g node,
    play choices_tree
      (skip_and_choose 0 0 ++ skip_and_choose 10 1 ++ skip_to_choices 20)
    = Done g
    /\ current_node_key g = py "1_2"
    /\ choices_tree !! py "1_1" = Some node
    /\ 0 <= 0 < len (current_choices choices_tree (current_node_key g))
    /\ choices_tree !! next_key (current_node_key g) 0 = Some (alias (py "1_1"))
    /\ select_choice choices_tree 30 0 g =
         Done {| running := running g;
                 fullscreen := fullscreen g;
                 game_state := if has_choices node then narrative else ending;
                 current_node_key := py "1_1";
                 typewriter :=
                   {| full_text :=
                        default (py "The story ends here.") (node_text node);
                      current_index := 0;
                      last_update := 30;
                      delay := delay (typewriter g) |} |}
    /\ current_choices choices_tree (py "1_1") = default [] (node_choices node).
Proof.
  eexists _, _. split; [vm_compute; reflexivity|]. split; [reflexivity|].
  match goal with
  | |- ?N /\ ?A /\ ?B /\ _ =>
      assert (Hn : N) by (vm_compute; reflexivity);
      assert (Ha : A) by (vm_compute; split; [discriminate|reflexivity]);
      assert (Hb : B) by (vm_compute; reflexivity)
  end.
  split; [exact Hn|]. split; [exact Ha|]. split; [exact Hb|].
  exact (redirect_followed_once choices_tree 30 0 _ (alias (py "1_1")) _
           (py "1_1") Ha Hb eq_refl Hn).
Defined.

(** C3, as the specification words it, fails. A redirect to a redirect is
    not resolved to the content node at the end of the chain: the game ends
    on the intermediate key with the default text. A redirect cycle is not
    detected: the choice completes, on a key inside the cycle. *)
Lemma redirect_chain_not_resolved :
  let g := choosing_at (py "start") (py "At the door.") in
  chained_tree !! next_key (current_node_key g) 0 = Some (alias (py "hall"))
  /\ spec_resolve chained_tree (size chained_tree) (py "1")
     = Some (content (py "The vault is open.") [py "Take the gold"])
  /\ select_choice chained_tree 0 0 g =
       Done {| running := true; fullscreen := false;
               game_state := ending;
               current_node_key := py "hall";
               typewriter :=
                 set_text (py "The story ends here.") 0 (typewriter g) |}
  /\ cyclic_tree !! next_key (current_node_key g) 0 = Some (alias (py "loop"))
  /\ spec_resolve cyclic_tree (size cyclic_tree) (py "1") = None
  /\ select_choice cyclic_tree 0 0 g =
       Done {| running := true; fullscreen := false;
               game_state := ending;
               current_node_key := py "loop";
               typewriter :=
                 set_text (py "The story ends here.") 0 (typewriter g) |}.
Proof.
  cbv zeta. repeat split; vm_compute; reflexivity.
Qed.

(** C4. Out-of-range choice: a choice index outside
    [0 <= index < len(choices)] changes nothing at all and raises nothing;
    in the choice state a key press that stands for such an index (a digit
    beyond the choices offered, or no digit) leaves the current node key,
    the game state and the typewriter as they were. *)
Theorem out_of_range_choice_ignored (tree : gmap str Node) (now i key : Z)
    (g : Game) :
  ~ (0 <= i < len (current_choices tree (current_node_key g))) ->
  select_choice tree now i g = Done g
  /\ (game_state g = choice -> choice_index_of_key key = i ->
      exists g', on_keydown tree now key g = Done g'
                 /\ current_node_key g' = current_node_key g
                 /\ game_state g' = game_state g
                 /\ typewriter g' = typewriter g).
Proof.
  intros Hout.
  assert (Hsel : forall g0, current_node_key g0 = current_node_key g ->
                            select_choice tree now i g0 = Done g0).
  { intros g0 E. unfold select_choice. rewrite E.
    now rewrite (out_of_range_test _ _ Hout). }
  split; [now apply Hsel|].
  intros Hstate Hkey. unfold on_keydown. rewrite Hkey.
  assert (Hctl : current_node_key (control_keys key g) = current_node_key g
                 /\ game_state (control_keys key g) = game_state g
                 /\ typewriter (control_keys key g) = typewriter g).
  { unfold control_keys.
    destruct ((key =? K_ESCAPE) || (key =? K_F1)); [repeat split|].
    destruct (key =? K_F4); [repeat split|].
    replace (is_narrative (game_state g)) with false by now rewrite Hstate.
    rewrite andb_false_r. repeat split. }
  destruct Hctl as (Hk & Hs & Ht). rewrite Hs, Hstate.
  exists (control_keys key g). split; [now apply Hsel|].
  rewrite Hk, Hs, Ht, Hstate. repeat split.
Qed.

Lemma out_of_range_choice_ignored_witness :
  exists g,
    play choices_tree (skip_to_choices 0) = Done g
    /\ game_state g = choice
    /\ choice_index_of_key (K_1 + 2) = 2
    /\ ~ (0 <= 2 < len (current_choices choices_tree (current_node_key g)))
    /\ select_choice choices_tree 5 2 g = Done g
    /\ exists g', on_keydown choices_tree 5 (K_1 + 2) g = Done g'
                  /\ current_node_key g' = current_node_key g
                  /\ game_state g' = game_state g
                  /\ typewriter g' = typewriter g.
Proof.
  eexists. split; [vm_compute; reflexivity|].
  split; [reflexivity|]. split; [reflexivity|].
  match goal with
  | |- ?A /\ _ =>
      assert (Ha : A) by (vm_compute; intros [_ H]; discriminate H)
  end.
  split; [exact Ha|].
  destruct (out_of_range_choice_ignored choices_tree 5 2 (K_1 + 2) _ Ha)
    as [Hsel Hkey].
  split; [exact Hsel|]. apply Hkey; reflexivity.
Defined.

(** ** Runs on the shipped data *)

(** The opening text in a fixed-pitch font of 14 pixels per character. *)
Example wrap_initial_story :
  wrap_text (fixed_pitch 14) text_max_width initial_story =
  [ py "Chapter 1: The Awakening";
    py "";
    py "You are playing a newly released game in a dark,";
    py "silent room. It's your deserved reward after all.";
    py "You waited 14 years for it. Now it is finally";
    py "available in your hand. Enjoying it is your virtue.";
    py "But some noise starts coming apart, disturbing your";
    py "joy in the process." ].
Proof. vm_compute. reflexivity. Qed.

(** Runs of spaces collapse, leading and trailing spaces disappear. *)
Example wrap_collapses_spaces :
  wrap_text (fixed_pitch 14) 200
    (py "  two  spaces   here and a long line to wrap ")
  = [py "two spaces"; py "here and a"; py "long line to"; py "wrap"].
Proof. vm_compute. reflexivity. Qed.

(** Node ["2_2_1"] offers two choices: the key 3 is ignored there, the key
    1 leads to the unwritten key ["2_2_1_1"]. *)
Example third_key_at_2_2_1 :
  exists g,
    play choices_tree
      (skip_and_choose 0 1 ++ skip_and_choose 10 1
       ++ skip_and_choose 20 0 ++ skip_to_choices 30) = Done g
    /\ current_choices choices_tree (current_node_key g)
       = [py "Punch even more npc?";
          py "Investigate the sound that irritating you?"]
    /\ on_keydown choices_tree 40 (K_1 + 2) g = Done g
    /\ next_key (current_node_key g) 0 = py "2_2_1_1".
Proof.
  eexists. split; [vm_compute; reflexivity|].
  repeat split; vm_compute; reflexivity.
Qed.

(** Quitting stops the loop: later turns leave the state alone. *)
Example quit_stops_the_loop :
  exists g,
    play choices_tree [([(0, Quit)], 1)] = Done g
    /\ running g = false
    /\ play choices_tree ([([(0, Quit)], 1)] ++ skip_and_choose 10 0) = Done g.
Proof.
  eexists. split; [vm_compute; reflexivity|].
  split; vm_compute; reflexivity.
Qed.

(** * Further properties of the code *)

(** ** The typewriter, continued *)

Lemma update_finished now self : is_finished self = true -> update now self = self.
Proof. intros H. unfold update. now rewrite H. Qed.

Lemma run_updates_finished ticks self :
  is_finished self = true -> run_updates self ticks = self.
Proof.
  intros H. induction ticks as [|t ticks IH]; [reflexivity|].
  simpl. fold (run_updates (update t self) ticks).
  now rewrite update_finished.
Qed.

(** A finished typewriter stays as it is, whatever [update] and [complete]
    calls follow and whatever the clock, until the next [set_text]. *)
Theorem finished_until_set_text (self : TypewriterText) (ops : list op) :
  index_in_bounds self -> is_finished self = true ->
  forallb keeps_text ops = true ->
  run self ops = self.
Proof.
  intros Hb Hf Hops. induction ops as [|o ops IH]; [reflexivity|].
  simpl in Hops. apply andb_true_iff in Hops as [Ho Hops].
  assert (Hstep : apply_op self o = self).
  { destruct o as [t n|n|]; [discriminate| |].
    - now apply update_finished.
    - apply is_finished_spec in Hf. unfold index_in_bounds in Hb.
      destruct self as [ft ci lu d]; simpl in *.
      unfold complete; simpl. f_equal. lia. }
  unfold run in *. simpl. rewrite Hstep. now apply IH.
Qed.

Lemma finished_until_set_text_witness :
  let s := complete (init default_text 30 0) in
  index_in_bounds s /\ is_finished s = true
  /\ run s [Update 100; Complete; Update 500] = s.
Proof.
  cbv zeta.
  assert (Hb : index_in_bounds (complete (init default_text 30 0)))
    by (vm_compute; split; discriminate).
  assert (Hf : is_finished (complete (init default_text 30 0)) = true)
    by reflexivity.
  split; [exact Hb|]. split; [exact Hf|].
  exact (finished_until_set_text _ [Update 100; Complete; Update 500]
           Hb Hf eq_refl).
Defined.

Lemma slice_to_nonneg (k : Z) (s : str) : 0 <= k -> slice_to k s = take (Z.to_nat k) s.
Proof. intros Hk. unfold slice_to. now rewrite (proj2 (Z.leb_le 0 k) Hk). Qed.

(** A reveal shows exactly one more character, the next one of the text:
    when the text is unfinished and more than [delay] has elapsed, the text
    on display after [update] is the text on display before it followed by
    the character at position [current_index]. *)
Theorem reveal_shows_next_character (now : Z) (self : TypewriterText) :
  0 <= current_index self < len (full_text self) ->
  delay self < now - last_update self ->
  exists c,
    full_text self !! Z.to_nat (current_index self) = Some c
    /\ revealed (update now self) = revealed self ++ [c].
Proof.
  intros [H0 Hlt] Hd.
  destruct (lookup_lt_is_Some_2 (full_text self) (Z.to_nat (current_index self)))
    as [c Hc]; [unfold len in Hlt; lia|].
  exists c. split; [exact Hc|].
  destruct (update_cases now self) as [(_ & _ & ->) | ([Hge|Hle] & _)]; [|lia|lia].
  unfold revealed; simpl. rewrite !slice_to_nonneg by lia.
  replace (Z.to_nat (current_index self + 1))
    with (S (Z.to_nat (current_index self))) by lia.
  now apply take_S_r.
Qed.

Lemma reveal_shows_next_character_witness :
  let s := init (py "Hello") 30 0 in
  0 <= current_index s < len (full_text s)
  /\ delay s < 31 - last_update s
  /\ exists c, full_text s !! Z.to_nat (current_index s) = Some c
               /\ revealed (update 31 s) = revealed s ++ [c].
Proof.
  cbv zeta.
  assert (Hi : 0 <= current_index (init (py "Hello") 30 0)
               < len (full_text (init (py "Hello") 30 0)))
    by (vm_compute; split; [discriminate|reflexivity]).
  assert (Hd : delay (init (py "Hello") 30 0)
               < 31 - last_update (init (py "Hello") 30 0))
    by (vm_compute; reflexivity).
  split; [exact Hi|]. split; [exact Hd|].
  exact (reveal_shows_next_character 31 _ Hi Hd).
Defined.

(** With frames more than [delay] apart every frame reveals a character
    until the text is complete: after [n] such frames the count is
    [min(len(text), count + n)], so [len(text) - count] frames finish the
    text. *)
Theorem well_spaced_frames_reveal_each (ticks : list Z) : forall self : TypewriterText,
  current_index self <= len (full_text self) ->
  well_spaced (delay self) (last_update self) ticks ->
  current_index (run_updates self ticks)
  = Z.min (len (full_text self)) (current_index self + len ticks)
  /\ (len (full_text self) - current_index self <= len ticks ->
      is_finished (run_updates self ticks) = true).
Proof.
  induction ticks as [|t ticks IH]; intros self Hle Hsp.
  - unfold len at 2 4. simpl. split; [lia|].
    intros H. apply is_finished_spec. lia.
  - destruct Hsp as [Hd Hsp]. simpl.
    fold (run_updates (update t self) ticks).
    assert (Hlen : len (t :: ticks) = len ticks + 1)
      by (unfold len; simpl length; lia).
    rewrite Hlen. pose proof (len_nonneg ticks) as Hn.
    destruct (update_cases t self) as [(Hlt & _ & E) | ([Hge|Hno] & E)];
      [| |lia].
    + destruct (IH (update t self)) as [IH1 IH2].
      * rewrite E; simpl. lia.
      * rewrite E; simpl. exact Hsp.
      * rewrite E in IH1, IH2. simpl in IH1, IH2. rewrite E.
        split; [rewrite IH1; lia|]. intros H. apply IH2. lia.
    + rewrite E. rewrite run_updates_finished by (apply is_finished_spec; lia).
      split; [lia|]. intros _. apply is_finished_spec. lia.
Qed.

Lemma well_spaced_frames_reveal_each_witness :
  let s := init (py "Hello") 30 0 in
  current_index s <= len (full_text s)
  /\ well_spaced (delay s) (last_update s) (frames 33 5)
  /\ current_index (run_updates s (frames 33 5)) = 5
  /\ is_finished (run_updates s (frames 33 5)) = true.
Proof.
  cbv zeta.
  assert (Hle : current_index (init (py "Hello") 30 0)
                <= len (full_text (init (py "Hello") 30 0)))
    by (vm_compute; discriminate).
  assert (Hsp : well_spaced (delay (init (py "Hello") 30 0))
                  (last_update (init (py "Hello") 30 0)) (frames 33 5))
    by (simpl; repeat split; lia).
  split; [exact Hle|]. split; [exact Hsp|].
  destruct (well_spaced_frames_reveal_each (frames 33 5) _ Hle Hsp) as [H1 H2].
  split; [exact H1|]. apply H2. vm_compute. discriminate.
Defined.

(** With a non-negative delay, a second [update] at the same clock value
    does nothing: at most one character appears per clock value, however
    often [update] is called. *)
Theorem update_twice_same_clock (now : Z) (self : TypewriterText) :
  0 <= delay self ->
  update now (update now self) = update now self.
Proof.
  intros Hd.
  destruct (update_cases now self) as [(_ & _ & E) | (_ & E)]; rewrite E.
  - destruct (update_cases now
                {| full_text := full_text self;
                   current_index := current_index self + 1;
                   last_update := now; delay := delay self |})
      as [(_ & Hd' & _) | (_ & E')]; [simpl in Hd'; lia|exact E'].
  - now rewrite E.
Qed.

Lemma update_twice_same_clock_witness :
  0 <= delay (init (py "Hello") 30 0)
  /\ update 31 (update 31 (init (py "Hello") 30 0))
     = update 31 (init (py "Hello") 30 0).
Proof.
  assert (Hd : 0 <= delay (init (py "Hello") 30 0)) by (simpl; lia).
  split; [exact Hd|]. exact (update_twice_same_clock 31 _ Hd).
Defined.

(** ** Word wrap, continued *)

Lemma split_pieces_chars sep s piece c :
  In piece (split sep s) -> In c piece -> In c s.
Proof.
  revert piece. induction s as [|a s IH]; simpl; intros piece Hp Hc.
  - destruct Hp as [<-|[]]. exact Hc.
  - destruct (N.eqb a sep).
    + destruct Hp as [<-|Hp]; [destruct Hc|]. right. now apply (IH piece).
    + pose proof (split_nonempty sep s) as Hne.
      destruct (split sep s) as [|q qs]; [contradiction|].
      destruct Hp as [<-|Hp].
      * destruct Hc as [->|Hc]; [now left|]. right. apply (IH q); [now left|exact Hc].
      * right. apply (IH piece); [now right|exact Hc].
Qed.

Lemma lstrip_chars s c : In c (lstrip s) -> In c s.
Proof.
  induction s as [|a s IH]; simpl; [tauto|].
  destruct (isspace a); [intros H; right; now apply IH|tauto].
Qed.

Lemma strip_chars s c : In c (strip s) -> In c s.
Proof.
  unfold strip, rstrip. intros H. apply in_rev in H.
  apply lstrip_chars in H. apply in_rev in H. now apply lstrip_chars.
Qed.

Lemma lstrip_head s c rest : lstrip s = c :: rest -> isspace c = false.
Proof.
  induction s as [|a s IH]; simpl; [discriminate|].
  destruct (isspace a) eqn:Ha; [exact IH|]. intros E. now inversion E; subst.
Qed.

Lemma lstrip_snoc_nonspace s c :
  isspace c = false -> lstrip (s ++ [c]) = lstrip s ++ [c].
Proof.
  intros Hc. induction s as [|a s IH]; simpl; [now rewrite Hc|].
  destruct (isspace a); [exact IH|reflexivity].
Qed.

Lemma rstrip_cons_nonspace s c :
  isspace c = false -> rstrip (c :: s) = c :: rstrip s.
Proof.
  intros Hc. unfold rstrip. simpl rev at 2.
  rewrite (lstrip_snoc_nonspace _ _ Hc), rev_app_distr. reflexivity.
Qed.

(** Neither end of a stripped string is whitespace. *)
Lemma strip_head s c rest : strip s = c :: rest -> isspace c = false.
Proof.
  unfold strip. destruct (lstrip s) as [|a t] eqn:E; [discriminate|].
  pose proof (lstrip_head _ _ _ E) as Ha.
  rewrite (rstrip_cons_nonspace _ _ Ha). intros H. now inversion H; subst.
Qed.

Lemma strip_last s front c : strip s = front ++ [c] -> isspace c = false.
Proof.
  unfold strip, rstrip. intros H. apply (f_equal (@rev _)) in H.
  rewrite rev_involutive, rev_app_distr in H. simpl in H.
  now apply lstrip_head in H.
Qed.

Section WrapInvariant.
Variable font_size : str -> Z.
Variable max_width : Z.
Variable P : str -> Prop.

(** A property of lines that holds of the words and survives the assembly
    of a test line holds of every line the word loop produces. *)
Lemma wrap_words_invariant (all_words : list str) words : forall acc cur,
  (forall w, In w all_words -> P w) ->
  (forall cur w, P cur -> In w all_words -> P (strip (cur ++ py " " ++ w))) ->
  incl words all_words -> Forall P acc -> P cur ->
  Forall P (fst (fold_left (wrap_word font_size max_width) words (acc, cur)))
  /\ P (snd (fold_left (wrap_word font_size max_width) words (acc, cur))).
Proof.
  induction words as [|w words IH]; intros acc cur Hw Hstrip Hincl Hacc Hcur.
  - simpl. split; assumption.
  - cbn [fold_left]. rewrite wrap_word_eq.
    assert (Hin : In w all_words) by (apply Hincl; now left).
    assert (Hrest : incl words all_words)
      by (intros x Hx; apply Hincl; now right).
    destruct (font_size (strip (cur ++ py " " ++ w)) <=? max_width).
    + apply IH; auto.
    + apply IH; auto. apply Forall_app. split; [assumption|]. now constructor.
Qed.

Lemma wrap_paragraph_invariant paragraph :
  P (py "") ->
  (forall w, In w (split space paragraph) -> P w) ->
  (forall cur w, P cur -> In w (split space paragraph) ->
                 P (strip (cur ++ py " " ++ w))) ->
  Forall P (wrap_paragraph font_size max_width [] paragraph).
Proof.
  intros Hnil Hw Hstrip. unfold wrap_paragraph.
  destruct (strip paragraph); [now repeat constructor|].
  destruct (wrap_words_invariant (split space paragraph)
              (split space paragraph) [] (py "") Hw Hstrip)
    as [Hacc Hcur]; [intros x Hx; exact Hx|constructor|exact Hnil|].
  destruct (fold_left (wrap_word font_size max_width)
              (split space paragraph) ([], py "")) as [ls cur].
  simpl in *. apply Forall_app. split; [assumption|]. now constructor.
Qed.

End WrapInvariant.

Lemma wrap_paragraph_length font_size max_width paragraph :
  (1 <= length (wrap_paragraph font_size max_width [] paragraph)
   <= 1 + length (split space paragraph))%nat.
Proof.
  unfold wrap_paragraph. destruct (strip paragraph); [simpl; lia|].
  assert (H : forall words acc cur,
    (length acc
     <= length (fst (fold_left (wrap_word font_size max_width) words (acc, cur)))
     <= length acc + length words)%nat).
  { induction words as [|w words IH]; intros acc cur; [simpl; lia|].
    cbn [fold_left]. rewrite wrap_word_eq.
    destruct (font_size (strip (cur ++ py " " ++ w)) <=? max_width).
    - specialize (IH acc (strip (cur ++ py " " ++ w))). cbn [length]. lia.
    - specialize (IH (acc ++ [cur]) w). rewrite length_app in IH.
      cbn [length] in *. lia. }
  specialize (H (split space paragraph) [] (py "")).
  destruct (fold_left (wrap_word font_size max_width)
              (split space paragraph) ([], py "")) as [ls cur].
  simpl in *. rewrite length_app. simpl. lia.
Qed.

(** [wrap_text] never returns the empty list (the [lines[-1]] of [draw]
    always exists): every paragraph gives at least one line, and at most
    one more than it has pieces between spaces. *)
Theorem wrap_text_line_count (font_size : str -> Z) (max_width : Z)
    (text paragraph : str) :
  wrap_text font_size max_width text <> []
  /\ (length (split newline text)
      <= length (wrap_text font_size max_width text))%nat
  /\ (1 <= length (wrap_paragraph font_size max_width [] paragraph)
      <= 1 + length (split space paragraph))%nat.
Proof.
  assert (Hlen : (length (split newline text)
                  <= length (wrap_text font_size max_width text))%nat).
  { rewrite wrap_text_paragraphs.
    induction (split newline text) as [|p ps IH]; [simpl; lia|].
    simpl. rewrite length_app.
    pose proof (wrap_paragraph_length font_size max_width p). lia. }
  split; [|split; [exact Hlen|apply wrap_paragraph_length]].
  intros E. rewrite E in Hlen. pose proof (split_nonempty newline text).
  destruct (split newline text); [contradiction|simpl in Hlen; lia].
Qed.

(** No line of [wrap_text] contains a newline, and no line begins or ends
    with a space. *)
Theorem wrapped_lines_are_trimmed (font_size : str -> Z) (max_width : Z)
    (text line : str) :
  In line (wrap_text font_size max_width text) ->
  ~ In newline line
  /\ (forall rest, line <> space :: rest)
  /\ (forall front, line <> front ++ [space]).
Proof.
  intros Hin. rewrite wrap_text_paragraphs in Hin.
  apply in_concat in Hin as (ls & Hls & Hin).
  apply in_map_iff in Hls as (paragraph & <- & Hp).
  pose proof (split_pieces_no_sep _ _ _ Hp) as Hnl.
  set (Q := fun l : str =>
         ~ In newline l /\ (forall rest, l <> space :: rest)
         /\ (forall front, l <> front ++ [space])).
  assert (HQ : Forall Q (wrap_paragraph font_size max_width [] paragraph)).
  { apply wrap_paragraph_invariant.
    - repeat split; [simpl; tauto|discriminate|].
      intros front E. now destruct front.
    - intros w Hw. pose proof (split_pieces_no_sep _ _ _ Hw) as Hsp.
      repeat split.
      + intros Hc. apply Hnl. now apply (split_pieces_chars space paragraph w).
      + intros rest ->. apply Hsp. now left.
      + intros front ->. apply Hsp. apply in_app_iff. right. now left.
    - intros cur w (Hcur & _ & _) Hw. repeat split.
      + intros Hc. apply strip_chars in Hc.
        apply in_app_iff in Hc as [Hc|Hc]; [now apply Hcur|].
        simpl in Hc. destruct Hc as [Hc|Hc]; [discriminate Hc|].
        apply Hnl. now apply (split_pieces_chars space paragraph w).
      + intros rest E. now apply strip_head in E.
      + intros front E. now apply strip_last in E. }
  rewrite Forall_forall in HQ. apply HQ. now apply list_elem_of_In.
Qed.

Lemma wrapped_lines_are_trimmed_witness :
  In (py "two spaces")
     (wrap_text (fixed_pitch 14) 200
        (py "  two  spaces   here and a long line to wrap "))
  /\ ~ In newline (py "two spaces")
  /\ (forall rest, py "two spaces" <> space :: rest)
  /\ (forall front, py "two spaces" <> front ++ [space]).
Proof.
  assert (Hin : In (py "two spaces")
                  (wrap_text (fixed_pitch 14) 200
                     (py "  two  spaces   here and a long line to wrap ")))
    by (vm_compute; now left).
  split; [exact Hin|].
  exact (wrapped_lines_are_trimmed (fixed_pitch 14) 200 _ _ Hin).
Defined.

Lemma join_snoc sep (pieces : list str) w :
  join sep (pieces ++ [w]) =
  match pieces with
  | [] => w
  | _ :: _ => join sep pieces ++ sep ++ w
  end.
Proof.
  induction pieces as [|a pieces IH]; [reflexivity|].
  destruct pieces as [|b pieces]; [reflexivity|].
  change (join sep ((a :: b :: pieces) ++ [w]))
    with (a ++ sep ++ join sep ((b :: pieces) ++ [w])).
  rewrite IH.
  change (join sep (a :: b :: pieces)) with (a ++ sep ++ join sep (b :: pieces)).
  now rewrite <- !app_assoc.
Qed.

Lemma join_nonempty sep (pieces : list str) :
  Forall (fun w => w <> []) pieces -> pieces <> [] -> join sep pieces <> [].
Proof.
  intros Hall Hne. destruct pieces as [|a pieces]; [contradiction|].
  apply Forall_cons in Hall as [Ha _].
  destruct pieces; simpl; [exact Ha|].
  destruct a; [contradiction|discriminate].
Qed.

Lemma filter_nonempty_all (pieces : list str) :
  Forall (fun w => w <> []) (filter (fun w => w <> []) pieces).
Proof.
  apply Forall_forall. intros w Hw. now apply list_elem_of_filter in Hw as [Hw _].
Qed.

Lemma test_line_joined_words (line_words : list str) (w : str) :
  Forall (fun w => w <> []) line_words ->
  strip (join (py " ") line_words) = join (py " ") line_words ->
  strip w = w ->
  strip (join (py " ") line_words ++ py " " ++ w)
  = join (py " ") (line_words ++ filter (fun w => w <> []) [w]).
Proof.
  intros Hall Hcur Hw. rewrite (strip_test_line _ _ Hcur Hw).
  destruct w as [|c w].
  - rewrite app_nil_r. now destruct (join (py " ") line_words).
  - change (filter (fun w => w <> []) [c :: w]) with [c :: w].
    rewrite join_snoc. destruct line_words as [|a rest]; [reflexivity|].
    pose proof (join_nonempty (py " ") (a :: rest) Hall) as Hj.
    destruct (join (py " ") (a :: rest)) as [|c' cur]; [now elim Hj|].
    reflexivity.
Qed.

(** The test line of the word loop when everything so far is on the current
    line: the non-empty words seen, joined by single spaces. *)
Lemma test_line_joined (seen : list str) (w : str) :
  strip (join (py " ") (filter (fun w => w <> []) seen))
  = join (py " ") (filter (fun w => w <> []) seen) ->
  strip w = w ->
  strip (join (py " ") (filter (fun w => w <> []) seen) ++ py " " ++ w)
  = join (py " ") (filter (fun w => w <> []) (seen ++ [w])).
Proof.
  intros Hcur Hw. rewrite filter_app.
  apply test_line_joined_words; [apply filter_nonempty_all|assumption..].
Qed.

Lemma wrap_words_one_line font_size max_width (words : list str) :
  forall seen : list str,
  strip (join (py " ") (filter (fun w => w <> []) seen))
  = join (py " ") (filter (fun w => w <> []) seen) ->
  Forall (fun w => strip w = w) words ->
  (forall k, font_size (join (py " ")
               (filter (fun w => w <> []) (take k (seen ++ words))))
             <= max_width) ->
  fold_left (wrap_word font_size max_width) words
    ([], join (py " ") (filter (fun w => w <> []) seen))
  = ([], join (py " ") (filter (fun w => w <> []) (seen ++ words))).
Proof.
  induction words as [|w words IH]; intros seen Hcur Hclean Hfit.
  - now rewrite app_nil_r.
  - apply Forall_cons in Hclean as [Hw Hclean].
    cbn [fold_left]. rewrite wrap_word_eq.
    pose proof (test_line_joined seen w Hcur Hw) as Htest. rewrite Htest.
    assert (Hk : font_size (join (py " ")
                    (filter (fun w => w <> []) (seen ++ [w]))) <= max_width).
    { specialize (Hfit (S (length seen))).
      replace (take (S (length seen)) (seen ++ w :: words)) with (seen ++ [w])
        in Hfit; [exact Hfit|].
      change (seen ++ w :: words) with (seen ++ [w] ++ words).
      rewrite app_assoc.
      rewrite take_app_le by (rewrite length_app; simpl; lia).
      rewrite take_ge; [reflexivity|]. rewrite length_app. simpl. lia. }
    rewrite (proj2 (Z.leb_le _ _) Hk).
    replace (seen ++ w :: words) with ((seen ++ [w]) ++ words)
      by now rewrite <- app_assoc.
    apply IH.
    + rewrite <- Htest. now apply strip_test_line_fixed.
    + exact Hclean.
    + intros k. replace ((seen ++ [w]) ++ words) with (seen ++ w :: words)
        by now rewrite <- app_assoc.
      apply Hfit.
Qed.

(** A paragraph that fits on one line comes out as one line, its non-empty
    words joined by single spaces: if the words carry no whitespace at their
    ends and the first [k] words joined by spaces fit the width for every
    [k], the paragraph wraps to exactly [" ".join(words)]. *)
Theorem fitting_paragraph_is_one_line (font_size : str -> Z) (max_width : Z)
    (paragraph : str) :
  strip paragraph <> [] ->
  Forall (fun w => strip w = w) (split space paragraph) ->
  (forall k, font_size (join (py " ")
               (filter (fun w => w <> []) (take k (split space paragraph))))
             <= max_width) ->
  wrap_paragraph font_size max_width [] paragraph
  = [join (py " ") (words_of paragraph)].
Proof.
  intros Hne Hclean Hfit. unfold wrap_paragraph.
  destruct (strip paragraph); [contradiction|].
  pose proof (wrap_words_one_line font_size max_width
                (split space paragraph) [] eq_refl Hclean Hfit) as H.
  simpl in H. change (py "") with (@nil char). rewrite H. reflexivity.
Qed.

Lemma fitting_paragraph_is_one_line_witness :
  strip (py "  two  spaces ") <> []
  /\ Forall (fun w => strip w = w) (split space (py "  two  spaces "))
  /\ wrap_paragraph (fixed_pitch 14) 200 [] (py "  two  spaces ")
     = [py "two spaces"].
Proof.
  assert (Hne : strip (py "  two  spaces ") <> [])
    by (vm_compute; discriminate).
  assert (Hclean : Forall (fun w => strip w = w)
                     (split space (py "  two  spaces ")))
    by (vm_compute; repeat constructor).
  assert (Hfit : forall k,
            fixed_pitch 14 (join (py " ")
              (filter (fun w => w <> [])
                      (take k (split space (py "  two  spaces ")))))
            <= 200).
  { intros k.
    do 7 (destruct k as [|k]; [vm_compute; discriminate|]).
    vm_compute; discriminate. }
  split; [exact Hne|]. split; [exact Hclean|].
  exact (fitting_paragraph_is_one_line (fixed_pitch 14) 200 _ Hne Hclean Hfit).
Defined.

(** ** Drawing a line *)

Lemma startswith_app sep s : startswith sep s = true -> exists rest, s = sep ++ rest.
Proof.
  revert s. induction sep as [|p sep IH]; intros s H; [now exists s|].
  destruct s as [|c s]; [discriminate|]. simpl in H.
  apply andb_true_iff in H as [Hc H]. apply N.eqb_eq in Hc as ->.
  destruct (IH s H) as [rest ->]. now exists rest.
Qed.

Lemma split_at_nonempty sep s : forall skip, split_at sep skip s <> [].
Proof.
  induction s as [|c s IH]; intros skip; simpl; [discriminate|].
  destruct skip; [|apply IH].
  destruct (startswith sep (c :: s)); [discriminate|].
  destruct (split_at sep 0 s); discriminate.
Qed.

Lemma split_at_skip sep (a b : str) :
  split_at sep (length a) (a ++ b) = split_at sep 0 b.
Proof. induction a as [|c a IH]; [reflexivity|exact IH]. Qed.

Lemma join_cons_char sep c piece (pieces : list str) :
  join sep ((c :: piece) :: pieces) = c :: join sep (piece :: pieces).
Proof. destruct pieces; reflexivity. Qed.

(** [sep.join(s.split(sep)) == s] *)
Lemma join_split_str sep s : sep <> [] -> join sep (split_str sep s) = s.
Proof.
  intros Hsep. unfold split_str.
  remember (length s) as n eqn:Hn. revert s Hn.
  induction n as [n IH] using lt_wf_ind. intros s Hn.
  destruct s as [|c s]; [reflexivity|].
  cbn [split_at]. destruct (startswith sep (c :: s)) eqn:Hst.
  - destruct (startswith_app _ _ Hst) as [rest E].
    destruct sep as [|p sep]; [contradiction|].
    simpl in E. inversion E; subst c s.
    replace (length (p :: sep) - 1)%nat with (length sep) by (simpl; lia).
    rewrite split_at_skip.
    pose proof (split_at_nonempty (p :: sep) rest 0) as Hne.
    destruct (split_at (p :: sep) 0 rest) as [|q qs] eqn:Eq; [contradiction|].
    change (join (p :: sep) ([] :: q :: qs))
      with ((p :: sep) ++ join (p :: sep) (q :: qs)).
    apply (f_equal (fun t => (p :: sep) ++ t)).
    transitivity (join (p :: sep) (split_at (p :: sep) 0 rest));
      [now rewrite Eq|].
    apply (IH (length rest)); [|reflexivity].
    subst n. simpl. rewrite length_app. lia.
  - pose proof (split_at_nonempty sep s 0) as Hne.
    destruct (split_at sep 0 s) as [|q qs] eqn:Eq; [contradiction|].
    rewrite join_cons_char. f_equal.
    transitivity (join sep (split_at sep 0 s)); [now rewrite Eq|].
    apply (IH (length s)); [subst n; simpl; lia|reflexivity].
Qed.

Lemma contains_split_str sep s :
  sep <> [] ->
  contains sep s = true -> (2 <= length (split_str sep s))%nat.
Proof.
  intros Hsep. unfold split_str. induction s as [|c s IH]; intros H.
  - simpl in H. rewrite orb_false_r in H. destruct sep; [contradiction|].
    discriminate.
  - cbn [contains] in H. cbn [split_at].
    destruct (startswith sep (c :: s)) eqn:Hst.
    + pose proof (split_at_nonempty sep s (length sep - 1)).
      destruct (split_at sep (length sep - 1) s); [contradiction|simpl; lia].
    + simpl in H. specialize (IH H).
      destruct (split_at sep 0 s) as [|q [|q' qs]]; simpl in *; lia.
Qed.

Lemma blit_segments_texts r segments : forall x y,
  concat (map blit_text (blit_segments r segments x y)) = join highlight segments.
Proof.
  induction segments as [|seg rest IH]; intros x y; [reflexivity|].
  destruct rest as [|seg' rest]; [simpl; now rewrite app_nil_r|].
  change (join highlight (seg :: seg' :: rest))
    with (seg ++ highlight ++ join highlight (seg' :: rest)).
  rewrite <- (IH (x + font_render_width r seg + font_render_width r highlight) y).
  reflexivity.
Qed.

Lemma blit_segments_end_to_end r segments : forall x y,
  end_to_end r x y (blit_segments r segments x y).
Proof.
  induction segments as [|seg rest IH]; intros x y; [exact I|].
  destruct rest as [|seg' rest]; [simpl; auto|].
  cbn [blit_segments end_to_end blit_x blit_y blit_text].
  repeat split. apply IH.
Qed.

Lemma blit_segments_width r segments : forall x y,
  segments <> [] ->
  sum_widths r (map blit_text (blit_segments r segments x y))
  = sum_widths r segments + font_render_width r highlight * (len segments - 1).
Proof.
  unfold sum_widths, len.
  induction segments as [|seg rest IH]; intros x y Hne; [contradiction|].
  destruct rest as [|seg' rest]; [simpl; lia|].
  specialize (IH (x + font_render_width r seg + font_render_width r highlight)
                 y ltac:(discriminate)).
  cbn [blit_segments map fold_right blit_text] in *.
  rewrite IH. cbn [length]. lia.
Qed.

Lemma draw_line_end_to_end (r : Renderer) (line : str)
    (base_x y : Z) (center : bool) :
  let blits := draw_line_with_formatting r line base_x y center in
  let W := sum_widths r (map blit_text blits) in
  end_to_end r
    (if center then base_x + (r_max_width r - W) / 2 else base_x) y blits.
Proof.
  cbv zeta. unfold draw_line_with_formatting.
  destruct (contains highlight line) eqn:Hc.
  - pose proof (contains_split_str highlight line ltac:(discriminate) Hc) as Hlen.
    rewrite blit_segments_width
      by (destruct (split_str highlight line); [simpl in Hlen; lia|discriminate]).
    apply blit_segments_end_to_end.
  - unfold sum_widths. cbn [map fold_right blit_text end_to_end blit_x blit_y].
    rewrite Z.add_0_r. auto.
Qed.

Lemma end_to_end_height r blits : forall x y,
  end_to_end r x y blits -> Forall (fun b => blit_y b = y) blits.
Proof.
  induction blits as [|b blits IH]; intros x y H; [constructor|].
  destruct H as (_ & Hy & H). constructor; [exact Hy|]. now apply IH in H.
Qed.

(** The pieces of a highlighted line are drawn side by side without gap or
    overlap, all at the height asked for, starting at [base_x], or, when
    centred, at [base_x + (max_width - W) // 2] where [W] is the sum of the
    widths of everything drawn; the space left of a centred line and the
    space right of it within [max_width] differ by at most one pixel. *)
Theorem formatted_line_is_seamless (r : Renderer) (line : str)
    (base_x y : Z) (center : bool) :
  let blits := draw_line_with_formatting r line base_x y center in
  let W := sum_widths r (map blit_text blits) in
  let left := (r_max_width r - W) / 2 in
  end_to_end r (if center then base_x + left else base_x) y blits
  /\ 0 <= (r_max_width r - W - left) - left <= 1.
Proof.
  cbv zeta. split; [apply draw_line_end_to_end|].
  pose proof (Z.div_mod
    (r_max_width r
     - sum_widths r
         (map blit_text (draw_line_with_formatting r line base_x y center)))
    2 ltac:(lia)).
  pose proof (Z.mod_pos_bound
    (r_max_width r
     - sum_widths r
         (map blit_text (draw_line_with_formatting r line base_x y center)))
    2 ltac:(lia)).
  lia.
Qed.

Lemma startswith_prefix sep a b :
  startswith sep a = true -> startswith sep (a ++ b) = true.
Proof.
  revert a. induction sep as [|p sep IH]; intros a H; [reflexivity|].
  destruct a as [|c a]; [discriminate|]. simpl in *.
  apply andb_true_iff in H as [-> H]. now apply IH.
Qed.

Lemma first_piece_is_prefix sep s q qs :
  sep <> [] -> split_str sep s = q :: qs -> exists more, s = q ++ more.
Proof.
  intros Hsep E. pose proof (join_split_str sep s Hsep) as J. rewrite E in J.
  destruct qs as [|q' qs]; simpl in J.
  - exists []. now rewrite app_nil_r.
  - eexists. symmetry. exact J.
Qed.

(** No piece of [s.split(sep)] holds [sep]. *)
Lemma split_str_pieces_clean sep s :
  sep <> [] -> Forall (fun piece => contains sep piece = false) (split_str sep s).
Proof.
  intros Hsep.
  assert (Hnil : contains sep [] = false)
    by (destruct sep; [contradiction|reflexivity]).
  remember (length s) as n eqn:Hn. revert s Hn.
  induction n as [n IH] using lt_wf_ind. intros s Hn.
  destruct s as [|c s]; [now repeat constructor|].
  unfold split_str. cbn [split_at].
  destruct (startswith sep (c :: s)) eqn:Hst.
  - destruct (startswith_app _ _ Hst) as [rest E].
    destruct sep as [|p sep]; [contradiction|].
    simpl in E. inversion E; subst c s.
    replace (length (p :: sep) - 1)%nat with (length sep) by (simpl; lia).
    rewrite split_at_skip. constructor; [exact Hnil|].
    apply (IH (length rest)); [|reflexivity].
    subst n. simpl. rewrite length_app. lia.
  - pose proof (IH (length s) ltac:(subst n; simpl; lia) s eq_refl) as Hs.
    unfold split_str in Hs.
    destruct (split_at sep 0 s) as [|q qs] eqn:Eq;
      [now apply split_at_nonempty in Eq|].
    apply Forall_cons in Hs as [Hq Hqs]. constructor; [|exact Hqs].
    cbn [contains]. rewrite Hq, orb_false_r.
    destruct (first_piece_is_prefix sep s q qs Hsep Eq) as [more ->].
    destruct (startswith sep (c :: q)) eqn:Hp; [|reflexivity].
    apply (startswith_prefix sep (c :: q) more) in Hp.
    simpl in Hp, Hst. congruence.
Qed.

(** Formatting a line loses nothing: the texts drawn, read from left to
    right, spell the line; each is the red highlight or a base-coloured
    piece of the line that holds no highlight; a line with the highlight in
    it gets at least one red piece, a line without it is drawn in one
    piece. *)
Theorem formatted_line_spells_line (r : Renderer) (line : str)
    (base_x y : Z) (center : bool) :
  let blits := draw_line_with_formatting r line base_x y center in
  concat (map blit_text blits) = line
  /\ Forall (fun b =>
       (blit_color b = RED /\ blit_text b = highlight)
       \/ (blit_color b = r_color r
           /\ contains highlight (blit_text b) = false)) blits
  /\ (if contains highlight line
      then exists b, In b blits /\ blit_color b = RED /\ blit_text b = highlight
      else length blits = 1%nat).
Proof.
  cbv zeta. unfold draw_line_with_formatting.
  destruct (contains highlight line) eqn:Hc.
  - split; [|split].
    + rewrite blit_segments_texts. now apply join_split_str.
    + pose proof (split_str_pieces_clean highlight line ltac:(discriminate))
        as Hclean.
      assert (H : forall segs x,
                Forall (fun piece => contains highlight piece = false) segs ->
                Forall (fun b =>
                  (blit_color b = RED /\ blit_text b = highlight)
                  \/ (blit_color b = r_color r
                      /\ contains highlight (blit_text b) = false))
                  (blit_segments r segs x y)).
      { induction segs as [|seg rest IH]; intros x Hsegs; [constructor|].
        apply Forall_cons in Hsegs as [Hseg Hrest].
        destruct rest as [|seg' rest].
        - simpl. constructor; [right; auto|constructor].
        - cbn [blit_segments]. constructor; [right; auto|].
          constructor; [left; auto|]. now apply IH. }
      now apply H.
    + pose proof (contains_split_str highlight line ltac:(discriminate) Hc)
        as Hlen.
      destruct (split_str highlight line) as [|a [|b rest]];
        [simpl in Hlen; lia..|].
      cbn [blit_segments]. eexists. split; [right; left; reflexivity|].
      split; reflexivity.
  - split; [simpl; now rewrite app_nil_r|]. split; [|reflexivity].
    constructor; [|constructor]. right. split; [reflexivity|exact Hc].
Qed.

(** ** Drawing the text area *)

Lemma wrap_text_not_nil font_size max_width text :
  wrap_text font_size max_width text <> [].
Proof.
  rewrite wrap_text_paragraphs. pose proof (split_nonempty newline text) as Hne.
  destruct (split newline text) as [|p ps]; [contradiction|]. simpl.
  pose proof (wrap_paragraph_length font_size max_width p) as Hlen.
  destruct (wrap_paragraph font_size max_width [] p); [simpl in Hlen; lia|].
  discriminate.
Qed.

(** Which lines the loop draws when the band test is a threshold on the
    line index. *)
Lemma line_calls_threshold (r : Renderer) (sy k0 : Z) (lines : list str) :
  forall i,
  (forall j, (j < length lines)%nat ->
     in_band r (sy + (i + Z.of_nat j) * font_linesize r)
     = (k0 <=? i + Z.of_nat j)) ->
  line_calls r sy i lines
  = drop (Z.to_nat (k0 - i))
      (imap (fun j line =>
               (line, sy + (i + Z.of_nat j) * font_linesize r,
                (i + Z.of_nat j =? 0) && startswith (py "Chapter") (strip line)))
            lines).
Proof.
  induction lines as [|line rest IH]; intros i Hband.
  - cbn [line_calls imap]. now rewrite drop_nil.
  - cbn [line_calls]. rewrite imap_cons.
    pose proof (Hband 0%nat ltac:(simpl; lia)) as H0.
    replace (i + Z.of_nat 0) with i in * by lia. rewrite H0.
    assert (Hrest : line_calls r sy (i + 1) rest
                    = drop (Z.to_nat (k0 - (i + 1)))
                        (imap ((fun j line =>
                           (line, sy + (i + Z.of_nat j) * font_linesize r,
                            (i + Z.of_nat j =? 0)
                            && startswith (py "Chapter") (strip line))) ∘ S)
                           rest)).
    { rewrite IH.
      - f_equal. apply imap_ext. intros j x _. simpl.
        now replace (i + 1 + Z.of_nat j) with (i + Z.pos (Pos.of_succ_nat j))
          by lia.
      - intros j Hj. specialize (Hband (S j) ltac:(simpl; lia)).
        now replace (i + 1 + Z.of_nat j) with (i + Z.of_nat (S j)) by lia. }
    rewrite Hrest.
    destruct (Z.leb_spec k0 i).
    + replace (Z.to_nat (k0 - i)) with 0%nat by lia.
      replace (Z.to_nat (k0 - (i + 1))) with 0%nat by lia. reflexivity.
    + replace (Z.to_nat (k0 - i)) with (S (Z.to_nat (k0 - (i + 1)))) by lia.
      reflexivity.
Qed.

Lemma start_y_of_bottom (r : Renderer) (lines : list str) :
  start_y_of r lines + len lines * font_linesize r
  = if r_max_height r <? len lines * font_linesize r
    then snd (r_pos r) + r_max_height r
    else snd (r_pos r) + len lines * font_linesize r.
Proof.
  unfold start_y_of. cbv zeta.
  destruct (r_max_height r <? len lines * font_linesize r); lia.
Qed.

Lemma line_band_threshold (r : Renderer) (lines : list str) (j : nat) :
  0 < font_linesize r -> (j < length lines)%nat ->
  in_band r (start_y_of r lines + (0 + Z.of_nat j) * font_linesize r)
  = (len lines - r_max_height r / font_linesize r <=? 0 + Z.of_nat j).
Proof.
  intros Hsp Hj. unfold in_band, start_y_of, len in *. cbv zeta.
  pose proof (Z.mul_div_le (r_max_height r) (font_linesize r) Hsp) as Hq1.
  pose proof (Z.mul_succ_div_gt (r_max_height r) (font_linesize r) Hsp) as Hq2.
  set (q := r_max_height r / font_linesize r) in *.
  set (sp := font_linesize r) in *. set (m := r_max_height r) in *.
  set (ys := snd (r_pos r)). set (L := Z.of_nat (length lines)).
  assert (HjL : Z.of_nat j + 1 <= L) by (subst L; lia).
  destruct (Z.ltb_spec m (L * sp)) as [Hover|Hfit].
  - destruct (Z.leb_spec (L - q) (0 + Z.of_nat j)) as [Hk|Hk].
    + apply andb_true_iff. split; [apply Z.leb_le|apply Z.ltb_lt]; nia.
    + apply andb_false_iff. left. apply Z.leb_gt. nia.
  - assert (L <= q) by nia.
    destruct (Z.leb_spec (L - q) (0 + Z.of_nat j)) as [Hk|Hk]; [|lia].
    apply andb_true_iff. split; [apply Z.leb_le|apply Z.ltb_lt]; nia.
Qed.

(** Scroll to the bottom: with a positive line height, exactly the last
    [max_height // linesize] lines are drawn (all of them when there are
    fewer), line [k] at [start_y + k * linesize], where the block starts at
    the top of the area when it fits and otherwise ends exactly at its
    bottom; only line 0 can be centred, and only when it starts with
    ["Chapter"]. *)
Theorem draw_shows_trailing_lines (r : Renderer) (lines : list str) :
  0 < font_linesize r ->
  line_calls r (start_y_of r lines) 0 lines
  = drop (Z.to_nat (len lines - r_max_height r / font_linesize r))
      (imap (fun k line =>
               (line, start_y_of r lines + Z.of_nat k * font_linesize r,
                (Z.of_nat k =? 0) && startswith (py "Chapter") (strip line)))
            lines)
  /\ start_y_of r lines + len lines * font_linesize r
     = if r_max_height r <? len lines * font_linesize r
       then snd (r_pos r) + r_max_height r
       else snd (r_pos r) + len lines * font_linesize r.
Proof.
  intros Hsp. split; [|apply start_y_of_bottom].
  rewrite (line_calls_threshold r (start_y_of r lines)
             (len lines - r_max_height r / font_linesize r) lines 0).
  - now rewrite Z.sub_0_r.
  - intros j Hj. now apply line_band_threshold.
Qed.

Lemma draw_shows_trailing_lines_witness :
  let r := main_renderer 14 40 in
  let lines := wrap_text (font_size_of r) (r_max_width r) initial_story in
  0 < font_linesize r
  /\ len lines = 8 /\ r_max_height r / font_linesize r = 7
  /\ map (fun c => snd (fst c)) (line_calls r (start_y_of r lines) 0 lines)
     = [40; 80; 120; 160; 200; 240; 280]
  /\ line_calls r (start_y_of r lines) 0 lines
     = drop 1
         (imap (fun k line =>
                  (line, start_y_of r lines + Z.of_nat k * font_linesize r,
                   (Z.of_nat k =? 0) && startswith (py "Chapter") (strip line)))
               lines).
Proof.
  cbv zeta.
  assert (Hsp : 0 < font_linesize (main_renderer 14 40)) by reflexivity.
  split; [exact Hsp|]. split; [vm_compute; reflexivity|].
  split; [reflexivity|]. split; [vm_compute; reflexivity|].
  exact (proj1 (draw_shows_trailing_lines (main_renderer 14 40)
                  (wrap_text (font_size_of (main_renderer 14 40))
                     (r_max_width (main_renderer 14 40)) initial_story) Hsp)).
Defined.

Lemma line_calls_in (r : Renderer) (sy : Z) (lines : list str) :
  forall i line y c,
  In (line, y, c) (line_calls r sy i lines) ->
  in_band r y = true
  /\ exists j, (j < length lines)%nat
               /\ y = sy + (i + Z.of_nat j) * font_linesize r.
Proof.
  induction lines as [|l rest IH]; intros i line y c Hin; [destruct Hin|].
  cbn [line_calls] in Hin. apply in_app_iff in Hin as [Hin|Hin].
  - destruct (in_band r (sy + i * font_linesize r)) eqn:Hb; [|destruct Hin].
    destruct Hin as [E|[]]. inversion E; subst. split; [exact Hb|].
    exists 0%nat. split; [simpl; lia|]. f_equal. lia.
  - apply IH in Hin as (Hb & j & Hj & ->). split; [exact Hb|].
    exists (S j). split; [simpl; lia|]. f_equal. lia.
Qed.

Lemma row_inside_area (r : Renderer) (lines : list str) (j : nat) :
  0 <= font_linesize r -> (j < length lines)%nat ->
  start_y_of r lines + (Z.of_nat j + 1) * font_linesize r
  <= snd (r_pos r) + r_max_height r.
Proof.
  intros Hsp Hj. unfold start_y_of, len. cbv zeta.
  destruct (Z.ltb_spec (r_max_height r)
              (Z.of_nat (length lines) * font_linesize r)); nia.
Qed.

(** Nothing is drawn above or below the text area: with a non-negative
    line height, every blit of [draw] (the cursor included) has its row
    wholly inside the band from [pos.y] to [pos.y + max_height]; a line
    that would be cut by the top edge is not drawn at all. *)
Theorem draw_stays_in_text_area (r : Renderer) (now : Z)
    (self : TypewriterText) (b : Blit) :
  0 <= font_linesize r ->
  In b (draw r now self) ->
  snd (r_pos r) <= blit_y b
  /\ blit_y b + font_linesize r <= snd (r_pos r) + r_max_height r.
Proof.
  intros Hsp Hin. unfold draw in Hin. cbv zeta in Hin.
  set (lines := draw_lines (font_size_of r) (r_max_width r) self) in *.
  apply in_app_iff in Hin as [Hin|Hin].
  - apply in_flat_map in Hin as ([[line y] c] & Hcall & Hb).
    apply line_calls_in in Hcall as (Hband & j & Hj & Hy).
    pose proof (draw_line_end_to_end r line (fst (r_pos r)) y c) as He.
    cbv zeta in He. apply end_to_end_height in He.
    rewrite Forall_forall in He.
    rewrite (He b) by now apply list_elem_of_In.
    unfold in_band in Hband. apply andb_true_iff in Hband as [Hlo _].
    apply Z.leb_le in Hlo. split; [exact Hlo|].
    pose proof (row_inside_area r lines j Hsp Hj). subst y. lia.
  - unfold cursor_blit in Hin.
    destruct (negb (is_finished self) && ((now / 500) mod 2 =? 0));
      [|destruct Hin].
    cbv zeta in Hin.
    destruct (in_band r (start_y_of r lines + (len lines - 1) * font_linesize r))
      eqn:Hband; [|destruct Hin].
    destruct Hin as [<-|[]]. cbn [blit_y].
    unfold in_band in Hband. apply andb_true_iff in Hband as [Hlo _].
    apply Z.leb_le in Hlo. split; [exact Hlo|].
    pose proof (start_y_of_bottom r lines) as Hbot.
    destruct (r_max_height r <? len lines * font_linesize r) eqn:Ho.
    + lia.
    + apply Z.ltb_ge in Ho. lia.
Qed.

Lemma draw_stays_in_text_area_witness :
  let r := main_renderer 14 40 in
  let self := complete (init initial_story 30 0) in
  let b := {| blit_text := py "14 years"; blit_color := RED;
              blit_x := 174; blit_y := 160 |} in
  0 <= font_linesize r
  /\ In b (draw r 0 self)
  /\ snd (r_pos r) <= blit_y b
  /\ blit_y b + font_linesize r <= snd (r_pos r) + r_max_height r.
Proof.
  cbv zeta.
  assert (Hsp : 0 <= font_linesize (main_renderer 14 40)) by (simpl; lia).
  assert (Hin : In {| blit_text := py "14 years"; blit_color := RED;
                      blit_x := 174; blit_y := 160 |}
                   (draw (main_renderer 14 40) 0
                      (complete (init initial_story 30 0))))
    by (vm_compute; do 4 right; now left).
  split; [exact Hsp|]. split; [exact Hin|].
  exact (draw_stays_in_text_area _ 0 _ _ Hsp Hin).
Defined.

(** The cursor follows the text: when a line fits the area
    ([0 < linesize <= max_height]), an underscore is drawn exactly when the
    text is unfinished and the clock is in an even half second; it sits on
    the row of the last line, which is inside the band, right after that
    line's text; and what is drawn repeats every 1000 clock units. *)
Theorem cursor_follows_text (r : Renderer) (now : Z) (self : TypewriterText) :
  0 < font_linesize r <= r_max_height r ->
  let lines := draw_lines (font_size_of r) (r_max_width r) self in
  let cursor_y := start_y_of r lines + (len lines - 1) * font_linesize r in
  in_band r cursor_y = true
  /\ cursor_blit r now self lines
     = (if negb (is_finished self) && ((now / 500) mod 2 =? 0)
        then [ {| blit_text := py "_"; blit_color := r_color r;
                  blit_x := fst (r_pos r)
                            + font_size_of r (default (py "") (last lines));
                  blit_y := cursor_y |} ]
        else [])
  /\ draw r (now + 1000) self = draw r now self.
Proof.
  intros [Hsp Hmax] lines cursor_y.
  assert (Hne : (1 <= length lines)%nat).
  { pose proof (wrap_text_not_nil (font_size_of r) (r_max_width r)
                  (slice_to (current_index self) (full_text self))) as H.
    subst lines. unfold draw_lines.
    destruct (wrap_text _ _ _); [contradiction|simpl; lia]. }
  assert (Hband : in_band r cursor_y = true).
  { subst cursor_y. unfold in_band, start_y_of, len in *. cbv zeta.
    destruct (Z.ltb_spec (r_max_height r)
                (Z.of_nat (length lines) * font_linesize r));
      (apply andb_true_iff; split; [apply Z.leb_le|apply Z.ltb_lt]; nia). }
  split; [exact Hband|]. split.
  - unfold cursor_blit. cbv zeta. fold cursor_y. now rewrite Hband.
  - unfold draw. cbv zeta. f_equal. unfold cursor_blit.
    replace ((now + 1000) / 500) with (now / 500 + 2)
      by (rewrite <- (Z.div_add now 2 500) by lia; f_equal; lia).
    replace ((now / 500 + 2) mod 2) with ((now / 500) mod 2)
      by (rewrite <- (Z.mod_add (now / 500) 1 2) by lia; f_equal; lia).
    reflexivity.
Qed.

Lemma cursor_follows_text_witness :
  let r := main_renderer 14 27 in
  let self := run_updates (init initial_story 30 0) (frames 31 150) in
  0 < font_linesize r <= r_max_height r
  /\ cursor_blit r 0 self (draw_lines (font_size_of r) (r_max_width r) self)
     = [ {| blit_text := py "_"; blit_color := WHITE;
            blit_x := 370; blit_y := 148 |} ].
Proof.
  cbv zeta.
  assert (H : 0 < font_linesize (main_renderer 14 27)
              <= r_max_height (main_renderer 14 27))
    by (vm_compute; split; [reflexivity|discriminate]).
  split; [exact H|].
  destruct (cursor_follows_text (main_renderer 14 27) 0
              (run_updates (init initial_story 30 0) (frames 31 150)) H)
    as (_ & Hc & _).
  rewrite Hc. vm_compute. reflexivity.
Defined.

(** ** The shape of the story graph *)

Lemma py_inj (s t : string) : py s = py t -> s = t.
Proof.
  unfold py. intros H.
  assert (Hl : list_ascii_of_string s = list_ascii_of_string t).
  { revert H. generalize (list_ascii_of_string s) (list_ascii_of_string t).
    induction l as [|a l IH]; intros [|b l'] H; try discriminate; [reflexivity|].
    simpl in H. inversion H as [[Hab Hl]].
    f_equal; [|now apply IH].
    rewrite <- (ascii_N_embedding a), <- (ascii_N_embedding b). now rewrite Hab. }
  rewrite <- (string_of_list_ascii_of_string s),
          <- (string_of_list_ascii_of_string t).
  now rewrite Hl.
Qed.

Lemma to_int_printable (n : Z) :
  Z.to_int n <> Decimal.Pos Decimal.Nil /\ Z.to_int n <> Decimal.Neg Decimal.Nil.
Proof.
  destruct n as [|p|p]; simpl; split; try discriminate;
    intros H; inversion H as [Hp];
    now apply DecimalPos.Unsigned.to_uint_nonnil in Hp.
Qed.

(** [str] is injective on integers. *)
Lemma str_of_int_inj (n m : Z) : str_of_int n = str_of_int m -> n = m.
Proof.
  unfold str_of_int. intros H. apply py_inj in H.
  destruct (to_int_printable n) as [Hn1 Hn2].
  destruct (to_int_printable m) as [Hm1 Hm2].
  pose proof (NilZero.isi _ Hn1 Hn2) as En.
  pose proof (NilZero.isi _ Hm1 Hm2) as Em.
  rewrite H in En. rewrite En in Em. inversion Em as [E].
  rewrite <- (DecimalZ.of_to n), <- (DecimalZ.of_to m). now rewrite E.
Qed.

Lemma digits_no_underscore (d : Decimal.uint) :
  ~ In 95%N (py (NilEmpty.string_of_uint d)).
Proof.
  induction d; simpl; intros H;
    try (destruct H as [H|H]; [discriminate H|now apply IHd]);
    destruct H.
Qed.

(** The decimal form of an integer holds no underscore. *)
Lemma str_of_int_no_underscore (n : Z) : ~ In 95%N (str_of_int n).
Proof.
  unfold str_of_int.
  assert (Hu : forall d, ~ In 95%N (py (NilZero.string_of_uint d))).
  { intros d. destruct d; try apply digits_no_underscore.
    simpl. intros [H|[]]. discriminate H. }
  destruct (Z.to_int n) as [d|d]; simpl.
  - apply Hu.
  - intros [H|H]; [discriminate H|]. now apply (Hu d).
Qed.

Lemma last_separator_unique (c : char) (a b x y : str) :
  ~ In c x -> ~ In c y -> a ++ c :: x = b ++ c :: y -> a = b /\ x = y.
Proof.
  intros Hx Hy. revert b. induction a as [|a0 a IH]; intros [|b0 b] H.
  - simpl in H. inversion H. auto.
  - simpl in H. inversion H; subst. exfalso. apply Hx.
    apply in_app_iff. right. now left.
  - simpl in H. inversion H; subst. exfalso. apply Hy.
    apply in_app_iff. right. now left.
  - simpl in H. inversion H as [[H0 H1]]. destruct (IH b H1) as [-> ->]. auto.
Qed.

(** The keys form a tree: a derived key determines the key it was derived
    from and the choice index, so no two choices, at the same node or at
    different nodes, lead to the same key. *)
Theorem next_key_is_injective (K K' : str) (i j : Z) :
  next_key K i = next_key K' j -> K = K' /\ i = j.
Proof.
  unfold next_key. change (py "_") with [95%N].
  destruct (decide (K = py "start")) as [->|HK];
    destruct (decide (K' = py "start")) as [->|HK']; intros H.
  - apply str_of_int_inj in H. split; [reflexivity|lia].
  - exfalso. apply (str_of_int_no_underscore (i + 1)). rewrite H.
    apply in_app_iff. right. now left.
  - exfalso. apply (str_of_int_no_underscore (j + 1)). rewrite <- H.
    apply in_app_iff. right. now left.
  - apply last_separator_unique in H as [-> H];
      [|apply str_of_int_no_underscore..].
    apply str_of_int_inj in H. split; [reflexivity|lia].
Qed.

Lemma next_key_is_injective_witness :
  next_key (py "1_1") 2 = next_key (py "1_1") (3 - 1)
  /\ py "1_1" = py "1_1" /\ 2 = 3 - 1.
Proof.
  assert (H : next_key (py "1_1") 2 = next_key (py "1_1") (3 - 1))
    by reflexivity.
  split; [exact H|]. exact (next_key_is_injective _ _ _ _ H).
Defined.

(** ** The main loop *)


Lemma events_after_error tree (events : list (Z * event)) key :
  fold_left (fun o '(t, ev) => and_then o (on_event tree t ev)) events
            (KeyError key)
  = KeyError key.
Proof. induction events as [|[t ev] events IH]; [reflexivity|exact IH]. Qed.

Lemma loop_iteration_cons tree t ev events now g :
  loop_iteration tree ((t, ev) :: events) now g
  = and_then (on_event tree t ev g) (loop_iteration tree events now).
Proof.
  unfold loop_iteration. cbn [fold_left and_then].
  destruct (on_event tree t ev g) as [g1|key]; [reflexivity|].
  now rewrite events_after_error.
Qed.

Lemma turns_after_error tree (turns : list (list (Z * event) * Z)) key :
  fold_left
    (fun o '(events, now) =>
       and_then o (fun g => if running g
                            then loop_iteration tree events now g
                            else Done g))
    turns (KeyError key)
  = KeyError key.
Proof. induction turns as [|[events now] turns IH]; [reflexivity|exact IH]. Qed.

Lemma play_is_play_from (tree : gmap str Node) turns :
  play tree turns
  = and_then (start_game tree 0) (fun g => play_from tree g turns).
Proof.
  unfold play, play_from. destruct (start_game tree 0) as [g|key]; [reflexivity|].
  simpl. apply turns_after_error.
Qed.

Lemma play_from_cons tree g events now turns :
  play_from tree g ((events, now) :: turns)
  = and_then (if running g then loop_iteration tree events now g else Done g)
             (fun g1 => play_from tree g1 turns).
Proof.
  unfold play_from. cbn [fold_left and_then].
  destruct (if running g then loop_iteration tree events now g else Done g)
    as [g1|key]; [reflexivity|].
  now rewrite turns_after_error.
Qed.

Section LoopInvariants.
Variable tree : gmap str Node.
Variable Inv : Game -> Prop.
Hypothesis Inv_frame : forall now g, Inv g -> Inv (end_of_frame now g).

(** An invariant of the events and of the end of a frame is an invariant of
    every session that does not raise. *)
Lemma play_from_preserves :
  (forall t ev g g', Inv g -> on_event tree t ev g = Done g' -> Inv g') ->
  forall turns g g', Inv g -> play_from tree g turns = Done g' -> Inv g'.
Proof.
  intros Hev.
  assert (Hloop : forall events now g g',
            Inv g -> loop_iteration tree events now g = Done g' -> Inv g').
  { induction events as [|[t ev] events IH]; intros now g g' Hg H.
    - inversion H; subst. now apply Inv_frame.
    - rewrite loop_iteration_cons in H.
      destruct (on_event tree t ev g) as [g1|key] eqn:E; [|discriminate].
      simpl in H. apply (IH now g1 g'); [|exact H]. now apply (Hev t ev g). }
  induction turns as [|[events now] turns IH]; intros g g' Hg H.
  - inversion H; now subst.
  - rewrite play_from_cons in H. destruct (running g).
    + destruct (loop_iteration tree events now g) as [g1|key] eqn:E;
        [|discriminate].
      simpl in H. apply (IH g1 g'); [|exact H]. now apply (Hloop events now g).
    + simpl in H. now apply (IH g g').
Qed.

(** If moreover no event raises where the invariant holds, no session
    raises. *)
Lemma play_from_total :
  (forall t ev g, Inv g -> exists g', on_event tree t ev g = Done g' /\ Inv g') ->
  forall turns g, Inv g -> exists g', play_from tree g turns = Done g' /\ Inv g'.
Proof.
  intros Hev.
  assert (Hloop : forall events now g,
            Inv g -> exists g', loop_iteration tree events now g = Done g'
                                /\ Inv g').
  { induction events as [|[t ev] events IH]; intros now g Hg.
    - exists (end_of_frame now g). split; [reflexivity|now apply Inv_frame].
    - rewrite loop_iteration_cons.
      destruct (Hev t ev g Hg) as (g1 & -> & Hg1). simpl. now apply IH. }
  induction turns as [|[events now] turns IH]; intros g Hg.
  - exists g. split; [reflexivity|exact Hg].
  - rewrite play_from_cons. destruct (running g).
    + destruct (Hloop events now g Hg) as (g1 & -> & Hg1). simpl. now apply IH.
    + simpl. now apply IH.
Qed.

End LoopInvariants.

(** What the quit, fullscreen and skip keys leave alone. *)
Lemma control_keys_cases (key : Z) (g : Game) :
  game_state (control_keys key g) = game_state g
  /\ current_node_key (control_keys key g) = current_node_key g
  /\ (typewriter (control_keys key g) = typewriter g
      \/ (game_state g = narrative
          /\ typewriter (control_keys key g) = complete (typewriter g))).
Proof.
  unfold control_keys.
  destruct ((key =? K_ESCAPE) || (key =? K_F1)); [simpl; auto|].
  destruct (key =? K_F4); [simpl; auto|].
  destruct (key =? K_SPACE); simpl; [|auto].
  destruct (game_state g) eqn:E; simpl; auto.
Qed.

(** The four ways a choice can go. *)
Lemma select_choice_cases (tree : gmap str Node) (now i : Z) (g : Game) :
  select_choice tree now i g = Done g
  \/ (exists key node,
        tree !! key = Some node
        /\ select_choice tree now i g =
             Done {| running := running g;
                     fullscreen := fullscreen g;
                     game_state := if has_choices node then narrative else ending;
                     current_node_key := key;
                     typewriter :=
                       set_text (default default_text (node_text node)) now
                                (typewriter g) |})
  \/ select_choice tree now i g =
       Done {| running := running g;
               fullscreen := fullscreen g;
               game_state := ending;
               current_node_key := current_node_key g;
               typewriter := set_text unwritten_message now (typewriter g) |}
  \/ (exists source target_node target,
        tree !! source = Some target_node
        /\ node_redirect target_node = Some target
        /\ tree !! target = None
        /\ select_choice tree now i g = KeyError target).
Proof.
  unfold select_choice.
  destruct ((0 <=? i) && (i <? len (current_choices tree (current_node_key g))));
    [|now left].
  cbv zeta.
  destruct (tree !! next_key (current_node_key g) i) as [target_node|] eqn:Hnk;
    [|right; right; now left].
  destruct (node_redirect target_node) as [target|] eqn:Hred.
  - destruct (tree !! target) as [node|] eqn:Ht.
    + right. left. now exists target, node.
    + right. right. right.
      now exists (next_key (current_node_key g) i), target_node, target.
  - rewrite Hnk. right. left.
    now exists (next_key (current_node_key g) i), target_node.
Qed.

Lemma check_redirects_sound (tree : gmap str Node) :
  check_redirects tree = true -> redirects_closed tree.
Proof.
  unfold check_redirects, redirects_closed.
  intros Hall key node target Hkey Hred.
  rewrite forallb_forall in Hall.
  assert (Hin : In (key, node) (map_to_list tree))
    by (apply list_elem_of_In; now apply elem_of_map_to_list).
  specialize (Hall (key, node) Hin). simpl in Hall. rewrite Hred in Hall.
  now apply bool_decide_eq_true in Hall.
Qed.

Lemma on_event_closed (tree : gmap str Node) (t : Z) (ev : event) (g : Game) :
  redirects_closed tree -> exists g', on_event tree t ev g = Done g'.
Proof.
  intros Hclosed. destruct ev as [|key|]; simpl; eauto.
  unfold on_keydown.
  destruct (game_state (control_keys key g)); eauto.
  destruct (select_choice_cases tree t (choice_index_of_key key)
              (control_keys key g))
    as [E|[(k & n & _ & E)|[E|(src & tn & tgt & Hs & Hr & Ht & _)]]];
    eauto.
  destruct (Hclosed src tn tgt Hs Hr) as [x Hx]. congruence.
Qed.

(** A story whose redirects all point at existing keys never makes the
    loop raise [KeyError], whatever the player does and from whatever state
    the loop is started. *)
Theorem closed_story_never_raises (tree : gmap str Node) (g : Game)
    (turns : list (list (Z * event) * Z)) :
  redirects_closed tree ->
  exists g', play_from tree g turns = Done g'.
Proof.
  intros Hclosed.
  destruct (play_from_total tree (fun _ => True) (fun _ _ _ => I)) with
    (turns := turns) (g := g) as (g' & H & _); [|exact I|eauto].
  intros t ev g0 _. destruct (on_event_closed tree t ev g0 Hclosed) as [g1 H].
  eauto.
Qed.

Lemma closed_story_never_raises_witness :
  redirects_closed choices_tree
  /\ exists g', play choices_tree
                  (skip_and_choose 0 0 ++ skip_and_choose 10 1
                   ++ skip_and_choose 20 0) = Done g'.
Proof.
  assert (Hclosed : redirects_closed choices_tree)
    by (apply check_redirects_sound; vm_compute; reflexivity).
  split; [exact Hclosed|].
  exact (closed_story_never_raises choices_tree (initial_game initial_story 0)
           (skip_and_choose 0 0 ++ skip_and_choose 10 1 ++ skip_and_choose 20 0)
           Hclosed).
Defined.

Lemma game_ok_event (tree : gmap str Node) t ev g g' :
  index_in_bounds (typewriter g)
  /\ (game_state g = choice -> is_finished (typewriter g) = true) ->
  on_event tree t ev g = Done g' ->
  index_in_bounds (typewriter g')
  /\ (game_state g' = choice -> is_finished (typewriter g') = true).
Proof.
  intros [Hb Hf] H. destruct ev as [|key|]; simpl in H.
  - inversion H; subst; simpl. auto.
  - unfold on_keydown in H.
    destruct (control_keys_cases key g) as (Hs & _ & Htw).
    assert (Hb1 : index_in_bounds (typewriter (control_keys key g)))
      by (destruct Htw as [->|[_ ->]]; [exact Hb|apply complete_in_bounds]).
    assert (Hf1 : game_state (control_keys key g) = choice ->
                  is_finished (typewriter (control_keys key g)) = true).
    { rewrite Hs. intros Hc. destruct Htw as [->|[Hn _]]; [auto|congruence]. }
    destruct (game_state (control_keys key g)) eqn:Est;
      try (inversion H; subst; split; [exact Hb1|congruence]).
    destruct (select_choice_cases tree t (choice_index_of_key key)
                (control_keys key g))
      as [E|[(k & n & _ & E)|[E|(src & tn & tgt & _ & _ & _ & E)]]];
      rewrite E in H; inversion H; subst; simpl.
    + split; [exact Hb1|]. intros _. now apply Hf1.
    + split; [apply set_text_in_bounds|]. now destruct (has_choices n).
    + split; [apply set_text_in_bounds|discriminate].
  - inversion H; subst. auto.
Qed.

Lemma game_ok_frame now g :
  index_in_bounds (typewriter g)
  /\ (game_state g = choice -> is_finished (typewriter g) = true) ->
  index_in_bounds (typewriter (end_of_frame now g))
  /\ (game_state (end_of_frame now g) = choice ->
      is_finished (typewriter (end_of_frame now g)) = true).
Proof.
  intros [Hb Hf]. unfold end_of_frame; simpl.
  split; [now apply update_in_bounds|].
  destruct (is_finished (update now (typewriter g))) eqn:E;
    [intros _; reflexivity|].
  rewrite andb_false_r. intros Hc. specialize (Hf Hc).
  rewrite (update_finished now _ Hf) in E. congruence.
Qed.

(** Choices are only offered under a finished text: the loop keeps the
    revealed count within the text and, in the choice state, the typewriter
    finished. From any state where this holds, for any story and any
    events, every state reached has the count within the text, and in the
    choice state the whole text of the typewriter is on display. The state
    the loop starts from is in the narrative state with nothing revealed,
    so it qualifies. *)
Theorem choices_only_after_text (tree : gmap str Node) (g g' : Game)
    (turns : list (list (Z * event) * Z)) :
  index_in_bounds (typewriter g) ->
  (game_state g = choice -> is_finished (typewriter g) = true) ->
  play_from tree g turns = Done g' ->
  index_in_bounds (typewriter g')
  /\ (game_state g' = choice ->
      is_finished (typewriter g') = true
      /\ revealed (typewriter g') = full_text (typewriter g')).
Proof.
  intros Hb0 Hf0 H.
  pose proof (play_from_preserves tree
    (fun g => index_in_bounds (typewriter g)
              /\ (game_state g = choice -> is_finished (typewriter g) = true))
    game_ok_frame (game_ok_event tree) turns g g' (conj Hb0 Hf0) H)
    as [Hb Hf].
  split; [exact Hb|]. intros Hc. specialize (Hf Hc). split; [exact Hf|].
  apply is_finished_spec in Hf. unfold index_in_bounds in Hb.
  unfold revealed. rewrite slice_to_nonneg by lia.
  apply take_ge. unfold len in *. lia.
Qed.

Lemma choices_only_after_text_witness :
  start_game choices_tree 0 = Done (initial_game initial_story 0)
  /\ index_in_bounds (typewriter (initial_game initial_story 0))
  /\ (game_state (initial_game initial_story 0) = choice ->
      is_finished (typewriter (initial_game initial_story 0)) = true)
  /\ exists g',
       play_from choices_tree (initial_game initial_story 0)
         (skip_to_choices 0) = Done g'
       /\ game_state g' = choice
       /\ revealed (typewriter g') = initial_story.
Proof.
  assert (Hb : index_in_bounds (typewriter (initial_game initial_story 0)))
    by (vm_compute; split; discriminate).
  assert (Hf : game_state (initial_game initial_story 0) = choice ->
               is_finished (typewriter (initial_game initial_story 0)) = true)
    by discriminate.
  split; [vm_compute; reflexivity|]. split; [exact Hb|]. split; [exact Hf|].
  eexists. split; [vm_compute; reflexivity|]. split; [reflexivity|].
  match goal with
  | |- revealed (typewriter ?g) = _ =>
      assert (Hp : play_from choices_tree (initial_game initial_story 0)
                     (skip_to_choices 0) = Done g)
        by (vm_compute; reflexivity);
      destruct (choices_only_after_text choices_tree _ g _ Hb Hf Hp) as [_ Hc];
      destruct (Hc eq_refl) as [_ Hr]; rewrite Hr; reflexivity
  end.
Defined.

(** Once the story has ended it stays ended: from the ending state no
    event raises or changes the game state, the current node or the text
    in the typewriter (which goes on revealing itself; SPACE no longer
    skips). *)
Theorem ended_story_stays_ended (tree : gmap str Node) (g : Game)
    (turns : list (list (Z * event) * Z)) :
  game_state g = ending ->
  exists g',
    play_from tree g turns = Done g'
    /\ game_state g' = ending
    /\ current_node_key g' = current_node_key g
    /\ full_text (typewriter g') = full_text (typewriter g).
Proof.
  intros Hend.
  apply (play_from_total tree
           (fun g' => game_state g' = ending
                      /\ current_node_key g' = current_node_key g
                      /\ full_text (typewriter g') = full_text (typewriter g))).
  - intros now g0 (Hs & Hk & Ht). unfold end_of_frame; simpl.
    rewrite Hs. simpl. rewrite update_keeps_text. auto.
  - intros t ev g0 (Hs & Hk & Ht). destruct ev as [|key|]; simpl.
    + eexists. split; [reflexivity|]. simpl. auto.
    + unfold on_keydown.
      destruct (control_keys_cases key g0) as (Hs1 & Hk1 & Htw).
      rewrite Hs1, Hs. eexists. split; [reflexivity|].
      rewrite Hs1, Hk1. split; [exact Hs|]. split; [exact Hk|].
      destruct Htw as [->|[Hn _]]; [exact Ht|congruence].
    + eexists. split; [reflexivity|]. auto.
  - auto.
Qed.

Lemma ended_story_stays_ended_witness :
  let g := {| running := true; fullscreen := false; game_state := ending;
              current_node_key := py "2_2_1";
              typewriter := init unwritten_message 30 40 |} in
  game_state g = ending
  /\ exists g',
       play_from choices_tree g (skip_and_choose 50 0) = Done g'
       /\ game_state g' = ending
       /\ current_node_key g' = current_node_key g
       /\ full_text (typewriter g') = full_text (typewriter g).
Proof.
  cbv zeta. split; [reflexivity|].
  exact (ended_story_stays_ended choices_tree
           {| running := true; fullscreen := false; game_state := ending;
              current_node_key := py "2_2_1";
              typewriter := init unwritten_message 30 40 |}
           (skip_and_choose 50 0) eq_refl).
Defined.

Lemma story_shown_event (tree : gmap str Node) t ev g g' :
  story_shown tree g -> on_event tree t ev g = Done g' -> story_shown tree g'.
Proof.
  intros Hg H. destruct ev as [|key|]; simpl in H.
  - inversion H; subst. exact Hg.
  - unfold on_keydown in H.
    destruct (control_keys_cases key g) as (Hs & Hk & Htw).
    assert (Hg1 : story_shown tree (control_keys key g)).
    { unfold story_shown in *. rewrite Hs, Hk.
      replace (full_text (typewriter (control_keys key g)))
        with (full_text (typewriter g))
        by (destruct Htw as [->|[_ ->]]; reflexivity).
      exact Hg. }
    destruct (game_state (control_keys key g)) eqn:Est;
      try (inversion H; subst; exact Hg1).
    destruct (select_choice_cases tree t (choice_index_of_key key)
                (control_keys key g))
      as [E|[(k & n & Hn & E)|[E|(src & tn & tgt & _ & _ & _ & E)]]];
      rewrite E in H; inversion H; subst.
    + exact Hg1.
    + unfold story_shown; simpl. destruct (has_choices n) eqn:Hc; [|exact I].
      exists n. auto.
    + exact I.
  - inversion H; subst. exact Hg.
Qed.

Lemma story_shown_frame (tree : gmap str Node) now g :
  story_shown tree g -> story_shown tree (end_of_frame now g).
Proof.
  unfold story_shown, end_of_frame; simpl. rewrite update_keeps_text.
  destruct (game_state g); simpl; auto.
  destruct (is_finished (update now (typewriter g))); auto.
Qed.

(** While the story goes on, what is typed is the current node: if the loop
    starts with the typewriter holding the text of the current node, a node
    with choices, then in every narrative or choice state it reaches the
    current key is a key of the story, its node has a non-empty choice
    list, and the typewriter holds that node's text. *)
Theorem typewriter_shows_current_node (tree : gmap str Node) (g g' : Game)
    (turns : list (list (Z * event) * Z)) :
  story_shown tree g ->
  play_from tree g turns = Done g' ->
  story_shown tree g'
  /\ (game_state g' = choice -> draw_choices tree g' <> []).
Proof.
  intros Hg H.
  assert (Hg' : story_shown tree g')
    by exact (play_from_preserves tree (story_shown tree)
                (story_shown_frame tree) (story_shown_event tree)
                turns g g' Hg H).
  split; [exact Hg'|]. intros Hc.
  unfold story_shown in Hg'. unfold draw_choices, current_choices.
  rewrite Hc in *. destruct Hg' as (node & -> & Hch & _).
  unfold has_choices in Hch.
  destruct (node_choices node) as [[|c cs]|]; discriminate.
Qed.

Lemma typewriter_shows_current_node_witness :
  story_shown choices_tree (initial_game initial_story 0)
  /\ exists g',
       play_from choices_tree (initial_game initial_story 0) (skip_and_choose 0 1) = Done g'
       /\ story_shown choices_tree g'.
Proof.
  assert (Hg : story_shown choices_tree (initial_game initial_story 0)).
  { unfold story_shown. change (game_state (initial_game initial_story 0)) with narrative.
    cbv iota. eexists. split; [vm_compute; reflexivity|].
    split; reflexivity. }
  split; [exact Hg|].
  eexists. split; [vm_compute; reflexivity|].
  match goal with
  | |- story_shown _ ?g =>
      assert (Hp : play_from choices_tree (initial_game initial_story 0) (skip_and_choose 0 1)
                   = Done g) by (vm_compute; reflexivity);
      exact (proj1 (typewriter_shows_current_node choices_tree (initial_game initial_story 0)
                      g (skip_and_choose 0 1) Hg Hp))
  end.
Defined.

(** Each key works in its own state only: the digit keys do nothing unless
    the game is in the choice state, and SPACE does nothing unless it is in
    the narrative state. *)
Theorem keys_ignored_outside_their_state (tree : gmap str Node) (now key : Z)
    (g : Game) :
  (game_state g <> choice -> K_1 <= key <= K_9 ->
   on_keydown tree now key g = Done g)
  /\ (game_state g <> narrative -> on_keydown tree now K_SPACE g = Done g).
Proof.
  split.
  - unfold K_1, K_9. intros Hs Hkey. unfold on_keydown, control_keys.
    replace ((key =? K_ESCAPE) || (key =? K_F1)) with false
      by (unfold K_ESCAPE, K_F1; symmetry; apply orb_false_iff; lia).
    replace (key =? K_F4) with false by (unfold K_F4; lia).
    replace (key =? K_SPACE) with false by (unfold K_SPACE; lia).
    simpl. destruct (game_state g); [reflexivity|contradiction|reflexivity].
  - intros Hs. unfold on_keydown, control_keys.
    change ((K_SPACE =? K_ESCAPE) || (K_SPACE =? K_F1)) with false.
    change (K_SPACE =? K_F4) with false. cbv iota.
    destruct (game_state g) eqn:E; [contradiction| |].
    + simpl. rewrite E. unfold select_choice.
      change (choice_index_of_key K_SPACE) with (-1). reflexivity.
    + simpl. now rewrite E.
Qed.

(** SPACE skips the animation: pressed in the narrative state, it puts the
    whole text on display and the choices are offered at the end of that
    very frame, on the same node. *)
Theorem space_brings_up_choices (tree : gmap str Node) (t now : Z) (g : Game) :
  game_state g = narrative ->
  exists g',
    loop_iteration tree [(t, KeyDown K_SPACE)] now g = Done g'
    /\ game_state g' = choice
    /\ current_node_key g' = current_node_key g
    /\ typewriter g' = complete (typewriter g)
    /\ revealed (typewriter g') = full_text (typewriter g).
Proof.
  intros Hs. unfold loop_iteration. cbn [fold_left and_then on_event].
  unfold on_keydown, control_keys.
  change ((K_SPACE =? K_ESCAPE) || (K_SPACE =? K_F1)) with false.
  change (K_SPACE =? K_F4) with false. cbv iota.
  rewrite Hs. simpl.
  assert (Hf : is_finished (complete (typewriter g)) = true)
    by (apply is_finished_spec; simpl; lia).
  eexists. split; [reflexivity|]. unfold end_of_frame; simpl.
  rewrite (update_finished now _ Hf), Hf. repeat split.
  unfold revealed; simpl.
  rewrite slice_to_nonneg by apply len_nonneg.
  apply take_ge. unfold len. lia.
Qed.

Lemma space_brings_up_choices_witness :
  game_state (initial_game initial_story 0) = narrative
  /\ exists g',
       loop_iteration choices_tree [(5, KeyDown K_SPACE)] 6 (initial_game initial_story 0)
       = Done g'
       /\ game_state g' = choice
       /\ current_node_key g' = current_node_key (initial_game initial_story 0)
       /\ typewriter g' = complete (typewriter (initial_game initial_story 0))
       /\ revealed (typewriter g') = full_text (typewriter (initial_game initial_story 0)).
Proof.
  split; [reflexivity|].
  exact (space_brings_up_choices choices_tree 5 6 (initial_game initial_story 0) eq_refl).
Defined.

(** The menu and the keyboard agree: in the choice state the choice at
    index [i] is listed as [f"{i+1}. {choice}"], 30 pixels below the one
    before it; for the first nine choices the digit key [i+1] is what
    selects it, and no key at all selects a choice from the tenth on. *)
Theorem menu_numbers_match_keys (tree : gmap str Node) (now : Z) (g : Game)
    (i : nat) (choice_ : str) :
  game_state g = choice ->
  current_choices tree (current_node_key g) !! i = Some choice_ ->
  draw_choices tree g !! S i
  = Some {| blit_text := str_of_int (Z.of_nat i + 1) ++ py ". " ++ choice_;
            blit_color := GREEN;
            blit_x := 40;
            blit_y := 30 + 300 + 50 + Z.of_nat i * 30 |}
  /\ ((i <= 8)%nat ->
      on_keydown tree now (K_1 + Z.of_nat i) g
      = select_choice tree now (Z.of_nat i) g)
  /\ ((9 <= i)%nat -> forall key, choice_index_of_key key <> Z.of_nat i).
Proof.
  intros Hs Hi. split; [|split].
  - unfold draw_choices. rewrite Hs.
    destruct (current_choices tree (current_node_key g)) as [|c cs] eqn:E;
      [discriminate|].
    rewrite lookup_cons, list_lookup_imap.
    replace (@lookup nat (list char) (list (list char)) _ i (c :: cs))
      with (Some choice_) by (symmetry; exact Hi).
    reflexivity.
  - intros Hle. rewrite on_keydown_digit.
    + f_equal. lia.
    + exact Hs.
    + unfold K_1, K_9. lia.
  - intros Hge key. unfold choice_index_of_key, K_1, K_9.
    destruct ((49 <=? key) && (key <=? 57)) eqn:E; [|lia].
    apply andb_true_iff in E as [E1 E2]. lia.
Qed.

Lemma menu_numbers_match_keys_witness :
  exists g,
    play choices_tree (skip_to_choices 0) = Done g
    /\ game_state g = choice
    /\ current_choices choices_tree (current_node_key g) !! 1%nat
       = Some (py "Ignore it")
    /\ draw_choices choices_tree g !! 2%nat
       = Some {| blit_text := py "2. Ignore it"; blit_color := GREEN;
                 blit_x := 40; blit_y := 410 |}.
Proof.
  eexists. split; [vm_compute; reflexivity|].
  match goal with
  | |- ?A /\ ?B /\ _ =>
      assert (Ha : A) by reflexivity;
      assert (Hb : B) by (vm_compute; reflexivity)
  end.
  split; [exact Ha|]. split; [exact Hb|].
  exact (proj1 (menu_numbers_match_keys choices_tree 0 _ 1 (py "Ignore it")
                  Ha Hb)).
Defined.

(** ** The typing sound *)

(** The typing sound never overlaps itself and never outlives the text:
    without a loaded sound [update] asks nothing of the channel; it starts
    the sound at most once, only in a call that reveals a character and only
    when the channel is idle; and whenever the text is finished after the
    call, the call ends by stopping the channel (so the sound started for
    the last character is stopped at once). *)
Theorem typing_sound_discipline (has_sound busy : bool) (now : Z)
    (self : TypewriterText) :
  let cmds := update_sound has_sound busy now self in
  (has_sound = false -> cmds = [])
  /\ (In Play cmds ->
      busy = false
      /\ current_index (update now self) = current_index self + 1
      /\ (cmds = [Play] \/ cmds = [Play; Stop]))
  /\ (has_sound = true -> is_finished (update now self) = true ->
      last cmds = Some Stop)
  /\ (is_finished (update now self) = false -> ~ In Stop cmds).
Proof.
  cbv zeta. unfold update_sound, play_typing_sound.
  destruct (update_cases now self) as [(Hlt & Hd & E) | (Hno & E)].
  - assert (Hdue : negb (is_finished self)
                   && (delay self <? now - last_update self) = true).
    { apply andb_true_iff. split; [|now apply Z.ltb_lt].
      apply negb_true_iff. unfold is_finished. apply Z.leb_gt. exact Hlt. }
    rewrite Hdue, E.
    destruct has_sound, busy,
      (is_finished {| full_text := full_text self;
                      current_index := current_index self + 1;
                      last_update := now; delay := delay self |});
      simpl; intuition (try discriminate; auto).
  - assert (Hdue : negb (is_finished self)
                   && (delay self <? now - last_update self) = false).
    { apply andb_false_iff. destruct Hno as [H|H].
      - left. apply negb_false_iff. now apply is_finished_spec.
      - right. apply Z.ltb_ge. exact H. }
    rewrite Hdue, E.
    destruct has_sound, (is_finished self);
      simpl; intuition (try discriminate; auto).
Qed.

(** ** Starting the loop *)

(** The shipped story starts on its opening text; a story without a
    ["start"] node, or whose ["start"] node is a redirect, raises before
    the loop begins, and so does every session on it. *)
Example start_game_shipped :
  start_game choices_tree 0 = Done (initial_game initial_story 0)
  /\ start_game (delete (py "start") choices_tree) 0 = KeyError (py "start")
  /\ start_game (<[py "start" := alias (py "1")]> choices_tree) 0
     = KeyError (py "text")
  /\ play (delete (py "start") choices_tree) (skip_and_choose 0 0)
     = KeyError (py "start").
Proof. repeat split; vm_compute; reflexivity. Qed.
